(** * JSON Formatter & Size Analyzer: the core of [App]

    A shallow embedding of the logic of the single React component of the
    repository (error location, tree building, size accounting, expansion
    state) together with the properties its specification states about it.

    JavaScript strings are sequences of UTF-16 code units; they are modelled
    as [list N].  The parts of the JavaScript runtime the component calls
    ([trim], [substring], [split], [Object.keys], [JSON.stringify], [Blob],
    [Set]) are modelled in the first part of the file, following ECMAScript;
    [JSON.parse] itself is the engine's and is a parameter of the component. *)

From Stdlib Require Import Decimal DecimalN DecimalPos.
From stdpp Require Import base option list sorting gmap strings.

Local Open Scope N_scope.
Set Warnings "-clear-no-such-hyp".

(** ** JavaScript strings *)

(** A string literal of the source, as code units. *)
Definition str (s : string) : list N :=
  Ascii.N_of_ascii <$> String.list_ascii_of_string s.

(** Truthiness of a string: the empty string is falsy. *)
Definition nonempty (s : list N) : bool :=
  match s with [] => false | _ :: _ => true end.

(** The Numbers the component uses as positions in a text: a natural
    number or [Infinity].  ([parseInt] yields doubles; the integers among
    them and [Infinity] are the values that occur.) *)
Inductive jsnat :=
  | Integer (n : N)
  | Infinity.

#[global] Instance jsnat_eq_dec : EqDecision jsnat.
Proof. solve_decision. Defined.

(** [s.substring(0, n)]: the end index is clamped to the length. *)
Definition substring0 (s : list N) (n : jsnat) : list N :=
  match n with
  | Integer n => take (N.to_nat n) s
  | Infinity => s
  end.

(** [s.substring(n)]: the start index is clamped to the length. *)
Definition substringFrom (s : list N) (n : jsnat) : list N :=
  match n with
  | Integer n => drop (N.to_nat n) s
  | Infinity => []
  end.

(** [s.split(sep)] for a one code unit separator: never empty, the pieces
    between the occurrences of [sep]. *)
Fixpoint split (sep : N) (s : list N) : list (list N) :=
  match s with
  | [] => [[]]
  | c :: rest =>
      if decide (c = sep) then [] :: split sep rest
      else match split sep rest with
           | [] => [[c]]
           | piece :: pieces => (c :: piece) :: pieces
           end
  end.

(** [s.lastIndexOf(c)] as JavaScript has it: [-1] when [c] does not occur. *)
Fixpoint lastIndexOf (c : N) (s : list N) : Z :=
  match s with
  | [] => (-1)%Z
  | d :: rest =>
      let r := lastIndexOf c rest in
      if decide (0 ≤ r)%Z then (1 + r)%Z
      else if decide (d = c) then 0%Z else (-1)%Z
  end.

(** WhiteSpace and LineTerminator of ECMAScript, which is what [trim]
    strips: TAB, LF, VT, FF, CR, SP, NBSP, U+1680, U+2000..U+200A, U+2028,
    U+2029, U+202F, U+205F, U+3000 and U+FEFF. *)
Definition isWhiteSpace (c : N) : bool :=
  bool_decide (c ∈ [9; 10; 11; 12; 13; 32; 160; 5760; 8232; 8233; 8239; 8287;
                    12288; 65279])
  || ((8192 <=? c) && (c <=? 8202)).

Fixpoint trimStart (s : list N) : list N :=
  match s with
  | c :: rest => if isWhiteSpace c then trimStart rest else s
  | [] => []
  end.

Definition trim (s : list N) : list N :=
  reverse (trimStart (reverse (trimStart s))).

(** ** Decimal numerals *)

Definition digit_unit (k : N) : N := 48 + k.

Fixpoint uint_units (d : uint) : list N :=
  match d with
  | Nil => []
  | D0 d => digit_unit 0 :: uint_units d
  | D1 d => digit_unit 1 :: uint_units d
  | D2 d => digit_unit 2 :: uint_units d
  | D3 d => digit_unit 3 :: uint_units d
  | D4 d => digit_unit 4 :: uint_units d
  | D5 d => digit_unit 5 :: uint_units d
  | D6 d => digit_unit 6 :: uint_units d
  | D7 d => digit_unit 7 :: uint_units d
  | D8 d => digit_unit 8 :: uint_units d
  | D9 d => digit_unit 9 :: uint_units d
  end.

(** [\d] *)
Definition isDigit (c : N) : bool := (48 <=? c) && (c <=? 57).

Definition digit_cons (c : N) : option (uint → uint) :=
  match c with
  | 48 => Some D0 | 49 => Some D1 | 50 => Some D2 | 51 => Some D3
  | 52 => Some D4 | 53 => Some D5 | 54 => Some D6 | 55 => Some D7
  | 56 => Some D8 | 57 => Some D9
  | _ => None
  end.

Fixpoint units_uint (s : list N) : option uint :=
  match s with
  | [] => Some Nil
  | c :: rest =>
      match digit_cons c, units_uint rest with
      | Some f, Some d => Some (f d)
      | _, _ => None
      end
  end.

(** [String(n)] for a non-negative integer [n] (an array index, a length). *)
Definition decimal (n : N) : list N := uint_units (N.to_uint n).

(** The Number value for a natural number [m]: [m] itself below 2^53;
    from there on the nearest double, which keeps the 53 leading bits of [m]
    and rounds on the rest, a tie going to the even significand; a result
    of 2^1024 or more is [Infinity]. *)
Definition roundToDouble (m : N) : jsnat :=
  if m <? 2 ^ 53 then Integer m
  else
    let k := N.log2 m - 52 in
    let q := N.shiftr m k in
    let r := m mod 2 ^ k in
    let half := 2 ^ (k - 1) in
    let q' := if (half <? r) || ((r =? half) && N.odd q) then q + 1 else q in
    let v := N.shiftl q' k in
    if v <? 2 ^ 1024 then Integer v else Infinity.

(** [parseInt(s)] for a string of decimal digits, as [match[1]] is: the
    Number value for the integer the digits denote. *)
Definition parseInt (s : list N) : jsnat :=
  match units_uint s with
  | Some d => roundToDouble (N.of_uint d)
  | None => Integer 0
  end.

(** ** JavaScript numbers

    [JSON.parse] yields IEEE doubles: a zero of either sign, an infinity
    (the literal [1e999] overflows) or a finite non-zero double.  A finite
    non-zero double is given by its sign and by the pair [(s, n)] that
    [Number::toString] selects for it: the shortest digit string [s], of [k]
    digits, with value [s * 10^(n - k)]. *)
Inductive jsnumber :=
  | NumZero (negative : bool)
  | NumInfinity (negative : bool)
  | NumFinite (negative : bool) (s : positive) (n : Z).

(** [Number::toString(x)], radix 10, for a finite non-zero double. *)
Definition finite_toString (s : positive) (n : Z) : list N :=
  let digits := uint_units (Pos.to_uint s) in
  let k := Z.of_nat (length digits) in
  let exponent :=
    (if decide (n - 1 < 0)%Z then str "-" else str "+")
      ++ decimal (Z.to_N (Z.abs (n - 1))) in
  if decide (k ≤ n ≤ 21)%Z then
    digits ++ replicate (Z.to_nat (n - k)) (digit_unit 0)
  else if decide (0 < n ≤ 21)%Z then
    take (Z.to_nat n) digits ++ str "." ++ drop (Z.to_nat n) digits
  else if decide (-6 < n ≤ 0)%Z then
    str "0." ++ replicate (Z.to_nat (- n)) (digit_unit 0) ++ digits
  else if decide (k = 1)%Z then
    digits ++ str "e" ++ exponent
  else
    take 1 digits ++ str "." ++ drop 1 digits ++ str "e" ++ exponent.

Definition Number_toString (x : jsnumber) : list N :=
  match x with
  | NumZero _ => str "0"
  | NumInfinity negative =>
      (if negative then str "-" else []) ++ str "Infinity"
  | NumFinite negative s n =>
      (if negative then str "-" else []) ++ finite_toString s n
  end.

(** ** Parsed values

    What [JSON.parse] returns.  An object is the list of its own properties
    in creation order, which for [JSON.parse] is the order of first
    occurrence of each key in the text; keys are unique. *)
Unset Elimination Schemes.
Inductive json :=
  | JNull
  | JBoolean (b : bool)
  | JNumber (x : jsnumber)
  | JString (s : list N)
  | JArray (items : list json)
  | JObject (fields : list (list N * json)).
Set Elimination Schemes.

(** The keys of every object inside [v] are pairwise distinct, as they are
    in any value [JSON.parse] returns. *)
Fixpoint wf_json (v : json) : bool :=
  match v with
  | JArray items =>
      (fix all (l : list json) : bool :=
         match l with [] => true | x :: l' => wf_json x && all l' end) items
  | JObject fields =>
      bool_decide (NoDup (fields.*1))
      && (fix all (l : list (list N * json)) : bool :=
            match l with
            | [] => true
            | (_, x) :: l' => wf_json x && all l'
            end) fields
  | _ => true
  end.

(** No key of an object inside [v] contains the code unit [c]. *)
Fixpoint keysAvoid (c : N) (v : json) : bool :=
  match v with
  | JArray items =>
      (fix all (l : list json) : bool :=
         match l with [] => true | x :: l' => keysAvoid c x && all l' end) items
  | JObject fields =>
      (fix all (l : list (list N * json)) : bool :=
         match l with
         | [] => true
         | (k, x) :: l' => bool_decide (c ∉ k) && keysAvoid c x && all l'
         end) fields
  | _ => true
  end.

(** [obj[k]] on an association list: the property named [k]. *)
Fixpoint get {A} (fields : list (list N * A)) (k : list N) : option A :=
  match fields with
  | [] => None
  | (k', v) :: rest => if decide (k' = k) then Some v else get rest k
  end.

(** A property key is an array index when it is the canonical decimal
    numeral of an integer below 2^32 - 1. *)
Definition array_index (k : list N) : option N :=
  match units_uint k with
  | Some d =>
      let i := N.of_uint d in
      if decide (decimal i = k ∧ i < 2 ^ 32 - 1) then Some i else None
  | None => None
  end.

(** [Object.keys(obj)], from the keys in creation order
    (OrdinaryOwnPropertyKeys): first the array indices in ascending numeric
    order, then the other keys in creation order. *)
Definition Object_keys (keys : list (list N)) : list (list N) :=
  (decimal <$> merge_sort N.le (omap array_index keys))
    ++ filter (λ k, array_index k = None) keys.

(** [typeof v] *)
Definition typeof (v : json) : list N :=
  match v with
  | JBoolean _ => str "boolean"
  | JNumber _ => str "number"
  | JString _ => str "string"
  | JNull | JArray _ | JObject _ => str "object"
  end.

(** [v === null] *)
Definition isNull (v : json) : bool :=
  match v with JNull => true | _ => false end.

(** ToBoolean: what [if (v)], [!v] and [v && ...] test. *)
Definition ToBoolean (v : json) : bool :=
  match v with
  | JNull => false
  | JBoolean b => b
  | JNumber (NumZero _) => false
  | JNumber _ => true
  | JString s => nonempty s
  | JArray _ | JObject _ => true
  end.

(** ** [JSON.stringify] without indentation *)

Definition hex_unit (k : N) : N := if k <? 10 then 48 + k else 87 + k.

(** [\uXXXX], lower case. *)
Definition unicode_escape (c : N) : list N :=
  str "\u" ++ [hex_unit (c / 4096 mod 16); hex_unit (c / 256 mod 16);
               hex_unit (c / 16 mod 16); hex_unit (c mod 16)].

Definition isHighSurrogate (c : N) : bool := (55296 <=? c) && (c <=? 56319).
Definition isLowSurrogate (c : N) : bool := (56320 <=? c) && (c <=? 57343).

(** QuoteJSONString, without the enclosing quotes: short escapes, [\u]
    escapes for the other control characters and for lone surrogates. *)
Fixpoint quote_units (s : list N) : list N :=
  match s with
  | [] => []
  | c :: rest =>
      if decide (c = 8) then str "\b" ++ quote_units rest
      else if decide (c = 9) then str "\t" ++ quote_units rest
      else if decide (c = 10) then str "\n" ++ quote_units rest
      else if decide (c = 12) then str "\f" ++ quote_units rest
      else if decide (c = 13) then str "\r" ++ quote_units rest
      else if decide (c = 34) then [92; 34] ++ quote_units rest
      else if decide (c = 92) then [92; 92] ++ quote_units rest
      else if c <? 32 then unicode_escape c ++ quote_units rest
      else if isHighSurrogate c then
        match rest with
        | d :: rest' =>
            if isLowSurrogate d then c :: d :: quote_units rest'
            else unicode_escape c ++ quote_units rest
        | [] => unicode_escape c
        end
      else if isLowSurrogate c then unicode_escape c ++ quote_units rest
      else c :: quote_units rest
  end.

Definition QuoteJSONString (s : list N) : list N :=
  [34] ++ quote_units s ++ [34].

(** [parts.join(",")] *)
Fixpoint join_comma (parts : list (list N)) : list N :=
  match parts with
  | [] => []
  | [p] => p
  | p :: rest => p ++ [44] ++ join_comma rest
  end.

Fixpoint JSON_stringify (v : json) : list N :=
  match v with
  | JNull => str "null"
  | JBoolean b => if b then str "true" else str "false"
  | JNumber x =>
      match x with
      | NumInfinity _ => str "null"
      | _ => Number_toString x
      end
  | JString s => QuoteJSONString s
  | JArray items =>
      [91] ++ join_comma
                ((fix each (l : list json) : list (list N) :=
                    match l with
                    | [] => []
                    | item :: l' => JSON_stringify item :: each l'
                    end) items)
           ++ [93]
  | JObject fields =>
      let members :=
        (fix each (l : list (list N * json)) : list (list N * list N) :=
           match l with
           | [] => []
           | (k, item) :: l' => (k, JSON_stringify item) :: each l'
           end) fields in
      [123] ++ join_comma
                 (omap (λ k, (λ text, QuoteJSONString k ++ [58] ++ text)
                                <$> get members k)
                       (Object_keys (fields.*1)))
            ++ [125]
  end.

(** The UTF-8 encoding of a string, as the [Blob] constructor computes it:
    a surrogate pair is one four-byte code point, a lone surrogate is
    replaced by U+FFFD. *)
Definition utf8_3 (c : N) : list N :=
  [224 + c / 4096; 128 + c / 64 mod 64; 128 + c mod 64].

Definition utf8_4 (high low : N) : list N :=
  let c := 65536 + (high - 55296) * 1024 + (low - 56320) in
  [240 + c / 262144; 128 + c / 4096 mod 64; 128 + c / 64 mod 64;
   128 + c mod 64].

Fixpoint utf8_encode (s : list N) : list N :=
  match s with
  | [] => []
  | c :: rest =>
      if c <? 128 then c :: utf8_encode rest
      else if c <? 2048 then
        [192 + c / 64; 128 + c mod 64] ++ utf8_encode rest
      else if isHighSurrogate c then
        match rest with
        | d :: rest' =>
            if isLowSurrogate d then utf8_4 c d ++ utf8_encode rest'
            else utf8_3 65533 ++ utf8_encode rest
        | [] => utf8_3 65533
        end
      else if isLowSurrogate c then utf8_3 65533 ++ utf8_encode rest
      else utf8_3 c ++ utf8_encode rest
  end.

(** [new Blob([s]).size] *)
Definition Blob_size (s : list N) : nat := length (utf8_encode s).

(** ** The regular expression [/position (\d+)/]

    [message.match(...)] finds the leftmost occurrence of ["position "]
    followed by at least one digit; the group captures all the digits that
    follow.  The result is [match[1]], or [None] when there is no match. *)
Definition isPrefixOf (p s : list N) : bool := bool_decide (take (length p) s = p).

Fixpoint takeDigits (s : list N) : list N :=
  match s with
  | c :: rest => if isDigit c then c :: takeDigits rest else []
  | [] => []
  end.

Fixpoint match_position (message : list N) : option (list N) :=
  match message with
  | [] => None
  | _ :: rest =>
      if isPrefixOf (str "position ") message
         && nonempty (takeDigits (drop 9 message))
      then Some (takeDigits (drop 9 message))
      else match_position rest
  end.

(** ** The component *)

Module JsonNode.
Record t := {
  key : list N;
  value : json;
  type : list N;
  size : nat;
  path : list N;
  expanded : option bool   (* [None]: the field is absent *)
}.
End JsonNode.

Module JsonError.
Record t := {
  message : list N;
  line : nat;
  column : nat;
  position : jsnat
}.
End JsonError.

(** The four [useState] cells. [parsedJson] holds a JavaScript value whose
    initial and "no value" content is [null]. *)
Record AppState := {
  jsonInput : list N;
  parsedJson : json;
  jsonError : option JsonError.t;
  expandedNodes : gset (list N)
}.

Definition initialState : AppState :=
  {| jsonInput := []; parsedJson := JNull; jsonError := None;
     expandedNodes := ∅ |}.

Definition setParsedJson (v : json) (st : AppState) : AppState :=
  {| jsonInput := jsonInput st; parsedJson := v; jsonError := jsonError st;
     expandedNodes := expandedNodes st |}.

Definition setJsonError (e : option JsonError.t) (st : AppState) : AppState :=
  {| jsonInput := jsonInput st; parsedJson := parsedJson st; jsonError := e;
     expandedNodes := expandedNodes st |}.

Definition setJsonInput (text : list N) (st : AppState) : AppState :=
  {| jsonInput := text; parsedJson := parsedJson st; jsonError := jsonError st;
     expandedNodes := expandedNodes st |}.

Definition setExpandedNodes (f : gset (list N) → gset (list N))
    (st : AppState) : AppState :=
  {| jsonInput := jsonInput st; parsedJson := parsedJson st;
     jsonError := jsonError st; expandedNodes := f (expandedNodes st) |}.

Definition calculateSize (obj : json) : nat :=
  Blob_size (JSON_stringify obj).

(** [const position = match ? parseInt(match[1]) : 0] *)
Definition errorPosition (message : list N) : jsnat :=
  match match_position message with
  | Some digits => parseInt digits
  | None => Integer 0
  end.

(** The body of the [catch] block after [setParsedJson(null)], given
    [error.message].  [lines[lines.length - 1]] is a lookup that can be
    undefined, in which case reading [.length] throws: [None]. *)
Definition locateError (input message : list N) : option JsonError.t :=
  let position := errorPosition message in
  let lines := split 10 (substring0 input position) in
  let line := length lines in
  match lines !! (length lines - 1)%nat with
  | Some lastLine =>
      let column := (length lastLine + 1)%nat in
      Some {| JsonError.message := message; JsonError.line := line;
              JsonError.column := column; JsonError.position := position |}
  | None => None
  end.

Definition currentPathOf (key path : list N) : list N :=
  if nonempty path then path ++ str "." ++ key else key.

Fixpoint buildJsonTree (expandedNodes : gset (list N))
    (obj : json) (key path : list N) : list JsonNode.t :=
  let currentPath := currentPathOf key path in
  match obj with
  | JNull =>
      [ {| JsonNode.key := key; JsonNode.value := JNull;
           JsonNode.type := str "null"; JsonNode.size := calculateSize JNull;
           JsonNode.path := currentPath; JsonNode.expanded := None |} ]
  | JArray items =>
      let size := calculateSize obj in
      {| JsonNode.key :=
           if decide (key = str "root") then str "root"
           else key ++ str " [" ++ decimal (N.of_nat (length items)) ++ str "]";
         JsonNode.value := obj; JsonNode.type := str "array";
         JsonNode.size := size; JsonNode.path := currentPath;
         JsonNode.expanded := Some (bool_decide (currentPath ∈ expandedNodes)) |}
      :: (if bool_decide (currentPath ∈ expandedNodes) then
            (fix forEach (l : list json) (index : N) : list JsonNode.t :=
               match l with
               | [] => []
               | item :: l' =>
                   buildJsonTree expandedNodes item
                     (str "[" ++ decimal index ++ str "]") currentPath
                     ++ forEach l' (N.succ index)
               end) items 0
          else [])
  | JObject fields =>
      let keys := Object_keys (fields.*1) in
      let size := calculateSize obj in
      {| JsonNode.key :=
           if decide (key = str "root") then str "root"
           else key ++ str " {" ++ decimal (N.of_nat (length keys)) ++ str "}";
         JsonNode.value := obj; JsonNode.type := str "object";
         JsonNode.size := size; JsonNode.path := currentPath;
         JsonNode.expanded := Some (bool_decide (currentPath ∈ expandedNodes)) |}
      :: (if bool_decide (currentPath ∈ expandedNodes) then
            let subtrees :=
              (fix each (l : list (list N * json)) :=
                 match l with
                 | [] => []
                 | (k, child) :: l' =>
                     (k, buildJsonTree expandedNodes child k currentPath)
                       :: each l'
                 end) fields in
            keys ≫= (λ objKey, default [] (get subtrees objKey))
          else [])
  | _ =>
      [ {| JsonNode.key := key; JsonNode.value := obj;
           JsonNode.type := typeof obj; JsonNode.size := calculateSize obj;
           JsonNode.path := currentPath; JsonNode.expanded := None |} ]
  end.

(** The updater passed to [setExpandedNodes] by [toggleNode]. *)
Definition toggle (path : list N) (prev : gset (list N)) : gset (list N) :=
  if bool_decide (path ∈ prev) then prev ∖ {[path]} else prev ∪ {[path]}.

Definition toggleNode (path : list N) (st : AppState) : AppState :=
  setExpandedNodes (toggle path) st.

(** [jsonTree]: nothing is built for a falsy [parsedJson]. *)
Definition jsonTree (st : AppState) : list JsonNode.t :=
  if ToBoolean (parsedJson st)
  then buildJsonTree (expandedNodes st) (parsedJson st) (str "root") []
  else [].

(** The "Items" figure of the header:
    [typeof parsedJson === 'object' && parsedJson !== null ?
       (Array.isArray(parsedJson) ? parsedJson.length
                                  : Object.keys(parsedJson).length) : 1]. *)
Definition itemsFigure (parsedJson : json) : nat :=
  if bool_decide (typeof parsedJson = str "object")
     && negb (isNull parsedJson)
  then match parsedJson with
       | JArray items => length items
       | JObject fields => length (Object_keys (fields.*1))
       | _ => 0%nat   (* not reached: no other value has type object *)
       end
  else 1%nat.

(** The "Size" figure of the header, in bytes (before [formatBytes]). *)
Definition sizeFigure (parsedJson : json) : nat :=
  Blob_size (JSON_stringify parsedJson).

(** The second effect: [if (parsedJson && expandedNodes.size === 0)]. *)
Definition autoExpandRoot (st : AppState) : AppState :=
  if ToBoolean (parsedJson st) && bool_decide (size (expandedNodes st) = 0%nat)
  then setExpandedNodes (λ _, {[ str "root" ]}) st
  else st.

Section Engine.

(** [JSON.parse]: the parsed value, or the message of the [SyntaxError]
    it throws. *)
Variable JSON_parse : list N → json + list N.

Definition parseJsonWithError (input : list N) (st : AppState) : AppState :=
  if negb (nonempty (trim input)) then
    setJsonError None (setParsedJson JNull st)
  else
    match JSON_parse input with
    | inl parsed => setJsonError None (setParsedJson parsed st)
    | inr message =>
        let st := setParsedJson JNull st in
        match locateError input message with
        | Some e => setJsonError (Some e) st
        | None => st
        end
    end.

(** What the user can do to the state; every button that rewrites the
    text area (paste, format, minify, clear) is a [SetJsonInput]. *)
Inductive event :=
  | SetJsonInput (text : list N)
  | ToggleNode (path : list N).

(** One event followed by the effects it triggers: the first effect
    re-parses the input, the second one looks at the expansion set. *)
Definition step (ev : event) (st : AppState) : AppState :=
  autoExpandRoot
    match ev with
    | SetJsonInput text =>
        let st := setJsonInput text st in
        parseJsonWithError (jsonInput st) st
    | ToggleNode path => toggleNode path st
    end.

Inductive reachable : AppState → Prop :=
  | reachable_initial : reachable initialState
  | reachable_step ev st : reachable st → reachable (step ev st).

(** The two effects, as they run after a handler has set [jsonInput]. *)
Definition runEffects (st : AppState) : AppState :=
  autoExpandRoot (parseJsonWithError (jsonInput st) st).

End Engine.

(** ** The visible tree

    The tree the flat node list stands for: every visited value with its
    path, and below it the visited children.  A value has children in the
    tree exactly when it is a container whose path is in the expanded set;
    the children of an array are its elements by ascending index, those of
    an object its properties in the order [order] puts the keys in. *)
Unset Elimination Schemes.
Inductive tree := Node (value : json) (path : list N) (children : list tree).
Set Elimination Schemes.

Fixpoint preorder (t : tree) : list (json * list N) :=
  match t with
  | Node v p children =>
      (v, p) :: (fix all (l : list tree) :=
                   match l with
                   | [] => []
                   | child :: l' => preorder child ++ all l'
                   end) children
  end.

Fixpoint visibleTree (order : list (list N) → list (list N))
    (expanded : gset (list N)) (v : json) (key parentPath : list N) : tree :=
  let p := currentPathOf key parentPath in
  Node v p
    (if bool_decide (p ∈ expanded) then
       match v with
       | JArray items =>
           (fix elements (l : list json) (index : N) : list tree :=
              match l with
              | [] => []
              | item :: l' =>
                  visibleTree order expanded item
                    (str "[" ++ decimal index ++ str "]") p
                    :: elements l' (N.succ index)
              end) items 0
       | JObject fields =>
           let subtrees :=
             (fix properties (l : list (list N * json)) :=
                match l with
                | [] => []
                | (k, child) :: l' =>
                    (k, visibleTree order expanded child k p) :: properties l'
                end) fields in
           omap (get subtrees) (order (fields.*1))
       | _ => []
       end
     else []).

(** The order the specification names: the keys as inserted. *)
Definition insertionOrder (keys : list (list N)) : list (list N) := keys.

Definition rootPath (t : tree) : list N :=
  match t with Node _ p _ => p end.

(** Every edge of the tree relates the path of a parent to the path of a
    child by [R]. *)
Fixpoint edges (R : list N → list N → Prop) (t : tree) : Prop :=
  match t with
  | Node _ p children =>
      (fix all (l : list tree) : Prop :=
         match l with
         | [] => True
         | child :: l' =>
             (match child with Node _ q _ => R p q end)
             ∧ edges R child ∧ all l'
         end) children
  end.

Definition strictPrefix (p q : list N) : Prop := p `prefix_of` q ∧ p ≠ q.

(** What a node list shows of each node for the tree comparison. *)
Definition visited (n : JsonNode.t) : json * list N :=
  (JsonNode.value n, JsonNode.path n).

(** ** Sample values *)

Definition num (s : positive) : json :=
  JNumber (NumFinite false s (Z.of_nat (length (uint_units (Pos.to_uint s))))).

(** [{"a":1,"b":{"c":2,"d":{"e":3}},"f":[1,2,3]}] *)
Definition nested : json :=
  JObject [(str "a", num 1);
           (str "b", JObject [(str "c", num 2);
                              (str "d", JObject [(str "e", num 3)])]);
           (str "f", JArray [num 1; num 2; num 3])].

(** The malformed text [{"a": }]. *)
Definition malformed : list N := [123; 34; 97; 34; 58; 32; 125].

(** An engine that answers as V8 does on the three texts the examples use,
    and rejects every other text. *)
Definition sampleEngine (text : list N) : json + list N :=
  if decide (text = str "[]") then inl (JArray [])
  else if decide (text = str "0") then inl (JNumber (NumZero false))
  else if decide (text = malformed) then
    inr (str "Unexpected token } in JSON at position 6")
  else inr (str "Unexpected end of JSON input").

(** ** Vocabulary of the statements *)

(** The elements of an array with their indices, counted from [i]. *)
Fixpoint enumFrom {A} (i : N) (l : list A) : list (N * A) :=
  match l with
  | [] => []
  | x :: l' => (i, x) :: enumFrom (N.succ i) l'
  end.

(** The key [buildJsonTree] gives the element of index [i]. *)
Definition indexKey (i : N) : list N := str "[" ++ decimal i ++ str "]".

Definition isContainer (v : json) : bool :=
  match v with JArray _ | JObject _ => true | _ => false end.

(** The number of newline characters of a text. *)
Definition countNewlines (s : list N) : nat :=
  length (filter (λ c, c = 10) s).

(** [len <= position], for the length [len] of a text. *)
Definition atOrBeyond (position : jsnat) (len : nat) : Prop :=
  match position with
  | Integer n => (len ≤ N.to_nat n)%nat
  | Infinity => True
  end.

(** [q] continues [p] by nothing or by further [.]-separated components. *)
Definition extends (p q : list N) : Prop :=
  ∃ r, q = p ++ r ∧ (r = [] ∨ ∃ r', r = 46 :: r').

(** ** The rest of the component *)

(** ['⚠️']: the warning sign followed by its variation selector. *)
Definition warningSign : list N := [9888; 65039].

(** [text[position] || '']: the character at [position], or nothing. *)
Definition charAt (text : list N) (position : jsnat) : list N :=
  match position with
  | Integer n =>
      match text !! N.to_nat n with
      | Some c => [c]
      | None => []
      end
  | Infinity => []
  end.

(** [position + 1].  Below 2^53 the sum of doubles is the exact sum.  From
    2^53 on the sum and its rounding both are at least 2^53, which is more
    than the length of any string, so that [substring] gives the same,
    empty, result for either: the model keeps the exact sum. *)
Definition plusOne (position : jsnat) : jsnat :=
  match position with
  | Integer n => Integer (n + 1)
  | Infinity => Infinity
  end.

Definition highlightErrorInText (text : list N)
    (error : option JsonError.t) : list N :=
  match error with
  | None => text
  | Some e =>
      if negb (nonempty text) then text
      else
        let position := JsonError.position e in
        let before := substring0 text position in
        let errorChar := charAt text position in
        let after := substringFrom text (plusOne position) in
        before ++ warningSign ++ errorChar ++ after
  end.

(** The spans of the error overlay, [jsonInput.split('').map(...)]: each
    character with the mark it gets when [index === jsonError.position].
    The overlay is rendered when [jsonError && jsonInput]. *)
Definition errorOverlay (jsonInput : list N)
    (jsonError : option JsonError.t) : list (bool * N) :=
  match jsonError with
  | Some e =>
      if nonempty jsonInput then
        imap (λ index char,
                (bool_decide (Integer (N.of_nat index) = JsonError.position e),
                 char))
             jsonInput
      else []
  | None => []
  end.

(** [JsonNodeComponent]: which rows react to a click. *)
Definition isExpandable (node : JsonNode.t) : bool :=
  bool_decide (JsonNode.type node = str "object")
  || bool_decide (JsonNode.type node = str "array").

Definition canExpand (node : JsonNode.t) : bool :=
  isExpandable node
  && match JsonNode.expanded node with Some _ => true | None => false end.

(** [onClick={() => canExpand && toggleNode(node.path)}] *)
Definition rowClick (node : JsonNode.t) (st : AppState) : AppState :=
  if canExpand node then toggleNode (JsonNode.path node) st else st.

(** [clearJson] *)
Definition clearJson (st : AppState) : AppState := setJsonInput [] st.

(** [removeWhitespaces] *)
Definition removeWhitespaces (st : AppState) : AppState :=
  if ToBoolean (parsedJson st)
  then setJsonInput (JSON_stringify (parsedJson st)) st
  else st.

(** The offset of column [column] of line [line] (both counted from 1) in
    a text with the lines [lines]: every earlier line counts with its
    newline. *)
Definition offsetOf (lines : list (list N)) (line column : nat) : nat :=
  (sum_list_with (λ l, S (length l)) (take (line - 1) lines)
   + (column - 1))%nat.

(** [hay.includes(needle)] *)
Fixpoint containsText (needle hay : list N) : bool :=
  isPrefixOf needle hay
  || match hay with
     | [] => false
     | _ :: rest => containsText needle rest
     end.

(** A click on a row, followed by the effect on the expansion set. *)
Definition click (node : JsonNode.t) (st : AppState) : AppState :=
  autoExpandRoot (rowClick node st).

(** The number of values in a document: the value itself and, for a
    container, the values below it. *)
Fixpoint countValues (v : json) : nat :=
  match v with
  | JArray items =>
      S ((fix sum (l : list json) : nat :=
            match l with
            | [] => 0
            | x :: l' => countValues x + sum l'
            end) items)
  | JObject fields =>
      S ((fix sum (l : list (list N * json)) : nat :=
            match l with
            | [] => 0
            | (_, x) :: l' => countValues x + sum l'
            end) fields)
  | _ => 1
  end%nat.

(** ** [JSON.stringify(v, null, 2)] *)

(** [parts.join(sep)] *)
Fixpoint join_with (sep : list N) (parts : list (list N)) : list N :=
  match parts with
  | [] => []
  | [p] => p
  | p :: rest => p ++ sep ++ join_with sep rest
  end.

(** The text of a container with the members [parts], between [opening]
    and [closing], at the indentation [indent] (SerializeJSONObject and
    SerializeJSONArray with a gap of two spaces). *)
Definition indentedContainer (opening closing : N) (indent : list N)
    (parts : list (list N)) : list N :=
  match parts with
  | [] => [opening; closing]
  | _ :: _ =>
      let inner := indent ++ [32; 32] in
      [opening; 10] ++ inner ++ join_with ([44; 10] ++ inner) parts
        ++ [10] ++ indent ++ [closing]
  end.

Fixpoint stringifyIndented (indent : list N) (v : json) : list N :=
  match v with
  | JArray items =>
      indentedContainer 91 93 indent
        ((fix each (l : list json) : list (list N) :=
            match l with
            | [] => []
            | item :: l' =>
                stringifyIndented (indent ++ [32; 32]) item :: each l'
            end) items)
  | JObject fields =>
      let members :=
        (fix each (l : list (list N * json)) : list (list N * list N) :=
           match l with
           | [] => []
           | (k, item) :: l' =>
               (k, stringifyIndented (indent ++ [32; 32]) item) :: each l'
           end) fields in
      indentedContainer 123 125 indent
        (omap (λ k, (λ text, QuoteJSONString k ++ [58; 32] ++ text)
                      <$> get members k)
              (Object_keys (fields.*1)))
  | _ => JSON_stringify v
  end.

(** [getFormattedJsonLines] *)
Definition getFormattedJsonLines (st : AppState) : list (list N) :=
  if negb (ToBoolean (parsedJson st)) then []
  else split 10 (stringifyIndented [] (parsedJson st)).

(** The "Lines" figure of the header. *)
Definition linesFigure (parsedJson : json) : nat :=
  length (split 10 (stringifyIndented [] parsedJson)).

(** [formatJson] *)
Definition formatJson (st : AppState) : AppState :=
  if ToBoolean (parsedJson st)
  then setJsonInput (stringifyIndented [] (parsedJson st)) st
  else st.

(** The number of lines of the indented text of a value: one for a leaf or
    an empty container, otherwise the lines of the members between the
    opening and the closing line. *)
Fixpoint lineCount (v : json) : nat :=
  match v with
  | JArray items =>
      match items with
      | [] => 1
      | _ :: _ =>
          2 + (fix sum (l : list json) : nat :=
                 match l with
                 | [] => 0
                 | x :: l' => lineCount x + sum l'
                 end) items
      end
  | JObject fields =>
      match fields with
      | [] => 1
      | _ :: _ =>
          2 + (fix sum (l : list (list N * json)) : nat :=
                 match l with
                 | [] => 0
                 | (_, x) :: l' => lineCount x + sum l'
                 end) fields
      end
  | _ => 1
  end%nat.

(** The lines of a container with the members [parts]. *)
Definition linesOfParts (parts : list (list N)) : nat :=
  match parts with
  | [] => 1
  | _ :: _ => 2 + sum_list_with (λ p, S (countNewlines p)) parts
  end%nat.

(** The text starts with a character that [trim] does not strip. *)
Definition startsVisible (s : list N) : Prop :=
  match s with
  | c :: _ => isWhiteSpace c = false
  | [] => False
  end.

(** * Properties *)

(** ** The runtime model on examples *)

Example decimal_42 : decimal 42 = str "42". Proof. reflexivity. Qed.
Example toString_1_5 : Number_toString (NumFinite false 15 1) = str "1.5". Proof. reflexivity. Qed.
Example toString_1e21 : Number_toString (NumFinite false 1 22) = str "1e+21". Proof. reflexivity. Qed.
Example toString_1em7 : Number_toString (NumFinite true 1 (-6)) = str "-1e-7". Proof. reflexivity. Qed.
Example toString_small : Number_toString (NumFinite false 1 (-5)) = str "0.000001". Proof. reflexivity. Qed.
Example toString_big : Number_toString (NumFinite false 12345 7) = str "1234500". Proof. reflexivity. Qed.
Example toString_exp : Number_toString (NumFinite false 12345 30) = str "1.2345e+29". Proof. reflexivity. Qed.
Example keys_order :
  Object_keys [str "b"; str "10"; str "9"; str "01"; str "a"; str "0"]
  = [str "0"; str "9"; str "10"; str "b"; str "01"; str "a"].
Proof. vm_compute. reflexivity. Qed.
Example match_v8 :
  parseInt <$> match_position (str "Unexpected token } in JSON at position 6")
  = Some (Integer 6).
Proof. vm_compute. reflexivity. Qed.
Example parseInt_rounds :
  parseInt (str "9007199254740992") = Integer 9007199254740992
  ∧ parseInt (str "9007199254740993") = Integer 9007199254740992
  ∧ parseInt (str "9007199254740995") = Integer 9007199254740996
  ∧ parseInt (str "123456789012345678901234567890")
    = Integer 123456789012345677877719597056.
Proof. vm_compute. repeat split. Qed.
Example parseInt_overflows :
  roundToDouble (2 ^ 1024 - 2 ^ 970 - 1) = Integer (2 ^ 1024 - 2 ^ 971)
  ∧ roundToDouble (2 ^ 1024 - 2 ^ 970) = Infinity
  ∧ parseInt (str "1" ++ replicate 309 48) = Infinity.
Proof. vm_compute. repeat split. Qed.
Example stringify_obj :
  JSON_stringify (JObject [(str "b", JArray [JNumber (NumFinite false 1 1); JNull]);
                           (str "0", JString (str "x" ++ [10]))])
  = [123; 34] ++ str "0" ++ [34; 58; 34] ++ str "x\n" ++ [34; 44; 34] ++ str "b" ++ [34; 58] ++ str "[1,null]}".
Proof. vm_compute. reflexivity. Qed.
Example trim_ws : trim ([32; 10; 65279] ++ str "a b" ++ [9]) = str "a b". Proof. vm_compute. reflexivity. Qed.
Example split_nl : split 10 (str "ab" ++ [10; 10] ++ str "c") = [str "ab"; []; str "c"]. Proof. vm_compute. reflexivity. Qed.
Example split_empty : split 10 [] = [[]]. Proof. reflexivity. Qed.
Example lastIndexOf_ex : lastIndexOf 10 (str "ab" ++ [10; 10] ++ str "c") = 3%Z. Proof. vm_compute. reflexivity. Qed.
Example utf8_ex :
  utf8_encode [97; 233; 8364; 55357; 56832; 56832]
  = [97; 195; 169; 226; 130; 172; 240; 159; 152; 128; 239; 191; 189].
Proof. vm_compute. reflexivity. Qed.
Example nested_text :
  JSON_stringify nested
  = [123; 34; 97; 34; 58; 49; 44; 34; 98; 34; 58; 123; 34; 99; 34; 58; 50; 44;
     34; 100; 34; 58; 123; 34; 101; 34; 58; 51; 125; 125; 44; 34; 102; 34; 58]
    ++ str "[1,2,3]}".
Proof. vm_compute. reflexivity. Qed.
Example nested_tree_paths :
  JsonNode.path <$> buildJsonTree {[str "root"; str "root.b"]} nested (str "root") []
  = [str "root"; str "root.a"; str "root.b"; str "root.b.c"; str "root.b.d"; str "root.f"].
Proof. vm_compute. reflexivity. Qed.
Example nested_tree_keys :
  JsonNode.key <$> buildJsonTree {[str "root"; str "root.f"]} nested (str "root") []
  = [str "root"; str "a"; str "b {2}"; str "f [3]"; str "[0]"; str "[1]"; str "[2]"].
Proof. vm_compute. reflexivity. Qed.

(** ** Induction on parsed values *)

Lemma json_ind (P : json → Prop) :
  P JNull → (∀ b, P (JBoolean b)) → (∀ x, P (JNumber x)) →
  (∀ s, P (JString s)) →
  (∀ items, Forall P items → P (JArray items)) →
  (∀ fields, Forall (λ kv, P kv.2) fields → P (JObject fields)) →
  ∀ v, P v.
Proof.
  intros Hnull Hbool Hnum Hstr Harr Hobj.
  fix IH 1. intros [ | b | x | s | items | fields].
  - exact Hnull.
  - apply Hbool.
  - apply Hnum.
  - apply Hstr.
  - apply Harr. induction items as [|v items IHitems]; constructor.
    + apply IH.
    + exact IHitems.
  - apply Hobj. induction fields as [|[k v] fields IHfields]; constructor.
    + apply IH.
    + exact IHfields.
Qed.

(** ** The loops of [buildJsonTree], unrolled *)

Arguments str : simpl never.
Arguments decimal : simpl never.
Arguments currentPathOf : simpl never.
Arguments calculateSize : simpl never.
Arguments Object_keys : simpl never.
Arguments indexKey : simpl never.
Arguments toggle : simpl never.

Lemma get_fmap {A B} (f : list N → A → B) (fields : list (list N * A)) k :
  get ((λ kv, (kv.1, f kv.1 kv.2)) <$> fields) k = f k <$> get fields k.
Proof.
  induction fields as [|[k' v] fields IH]; simpl; [done|].
  case_decide; subst; simpl; auto.
Qed.

Lemma get_Some_elem_of {A} (fields : list (list N * A)) k v :
  get fields k = Some v → (k, v) ∈ fields.
Proof.
  induction fields as [|[k' v'] fields IH]; simpl; [done|].
  case_decide; subst.
  - intros [= ->]. left.
  - intros H'. right. auto.
Qed.

Lemma buildJsonTree_array E items key path :
  buildJsonTree E (JArray items) key path
  = {| JsonNode.key :=
         if decide (key = str "root") then str "root"
         else key ++ str " [" ++ decimal (N.of_nat (length items)) ++ str "]";
       JsonNode.value := JArray items; JsonNode.type := str "array";
       JsonNode.size := calculateSize (JArray items);
       JsonNode.path := currentPathOf key path;
       JsonNode.expanded := Some (bool_decide (currentPathOf key path ∈ E)) |}
    :: (if bool_decide (currentPathOf key path ∈ E) then
          enumFrom 0 items ≫= (λ '(index, item),
            buildJsonTree E item (indexKey index) (currentPathOf key path))
        else []).
Proof.
  cbn [buildJsonTree]. f_equal. case_bool_decide; [|done].
  generalize 0. induction items as [|item items IH]; intros i; [done|].
  cbn [enumFrom mbind list_bind]. by rewrite IH.
Qed.

Lemma buildJsonTree_object E fields key path :
  buildJsonTree E (JObject fields) key path
  = {| JsonNode.key :=
         if decide (key = str "root") then str "root"
         else key ++ str " {"
                ++ decimal (N.of_nat (length (Object_keys (fields.*1))))
                ++ str "}";
       JsonNode.value := JObject fields; JsonNode.type := str "object";
       JsonNode.size := calculateSize (JObject fields);
       JsonNode.path := currentPathOf key path;
       JsonNode.expanded := Some (bool_decide (currentPathOf key path ∈ E)) |}
    :: (if bool_decide (currentPathOf key path ∈ E) then
          Object_keys (fields.*1) ≫= (λ objKey,
            match get fields objKey with
            | Some child =>
                buildJsonTree E child objKey (currentPathOf key path)
            | None => []
            end)
        else []).
Proof.
  cbn [buildJsonTree]. f_equal. case_bool_decide; [|done].
  set (f := λ k child, buildJsonTree E child k (currentPathOf key path)).
  assert (Hfix : ∀ l,
    (fix each (l : list (list N * json)) :=
       match l with
       | [] => []
       | (k, child) :: l' =>
           (k, buildJsonTree E child k (currentPathOf key path)) :: each l'
       end) l = (λ kv, (kv.1, f kv.1 kv.2)) <$> l).
  { induction l as [|[k v] l IH]; simpl; [done|]. by rewrite IH. }
  rewrite Hfix. apply list_bind_ext; [|done].
  intros k. rewrite get_fmap. by destruct (get fields k).
Qed.

Lemma enumFrom_elem_of {A} (l : list A) i j x :
  (j, x) ∈ enumFrom i l → x ∈ l.
Proof.
  revert i. induction l as [|y l IH]; intros i; cbn [enumFrom].
  - by intros ?%elem_of_nil.
  - intros [[= -> ->]|?]%elem_of_cons; [left|right; eauto].
Qed.

Lemma length_Object_keys keys : length (Object_keys keys) = length keys.
Proof.
  unfold Object_keys. rewrite length_app, length_fmap.
  rewrite (Permutation_length (merge_sort_Permutation _ _)).
  induction keys as [|k keys IH]; [done|].
  rewrite filter_cons. cbn [omap list_omap].
  destruct (decide (array_index k = None)) as [Hk|Hk].
  - rewrite Hk. simpl in *. lia.
  - destruct (array_index k); [|done]. simpl in *. lia.
Qed.

(** ** Size accounting *)

Lemma buildJsonTree_sizes E obj : ∀ key path,
  Forall (λ node, JsonNode.size node = calculateSize (JsonNode.value node))
         (buildJsonTree E obj key path).
Proof.
  induction obj as [ | b | x | s | items IH | fields IH] using json_ind;
    intros key path; try by repeat constructor.
  - rewrite buildJsonTree_array. constructor; [done|].
    case_bool_decide; [|constructor].
    apply Forall_bind, Forall_forall. intros [i item] Hin.
    apply enumFrom_elem_of in Hin.
    rewrite Forall_forall in IH. by apply IH.
  - rewrite buildJsonTree_object. constructor; [done|].
    case_bool_decide; [|constructor].
    apply Forall_bind, Forall_forall. intros k _. unfold compose.
    destruct (get fields k) as [child|] eqn:Hget; [|constructor].
    apply get_Some_elem_of in Hget.
    rewrite Forall_forall in IH. by apply (IH _ Hget).
Qed.

(** C2. Every node of a build carries as its size the number of bytes of the
    UTF-8 encoding of [JSON.stringify] (no indentation) of the node's own
    value, and the header's size figure is that measure of the whole parsed
    value.  Both are functions of the value alone, computed anew by each
    build. *)
Theorem size_is_utf8_length_of_minified_serialization :
  ∀ (expanded : gset (list N)) (obj : json) (key path : list N),
    Forall (λ node,
              JsonNode.size node
              = length (utf8_encode (JSON_stringify (JsonNode.value node))))
           (buildJsonTree expanded obj key path)
    ∧ sizeFigure obj = length (utf8_encode (JSON_stringify obj)).
Proof.
  intros E obj key path. split; [|done].
  apply buildJsonTree_sizes.
Qed.

(** ** Display keys and type tags *)

(** C7, as the code has it.  The node emitted for a container under a key
    other than ['root'] shows the key followed by [ [n]] (arrays, [n] the
    number of elements) or [ {n}] (objects, [n] the number of keys); the
    top-level call, whose key is ['root'], shows the bare ['root'].  A leaf
    shows its key unchanged; its type tag is ['null'] for null and the
    [typeof] name for the other primitives. *)
Theorem display_key_and_type_tag :
  ∀ (expanded : gset (list N)) (obj : json) (key path : list N),
    ∃ node rest,
      buildJsonTree expanded obj key path = node :: rest
      ∧ match obj with
        | JArray items =>
            JsonNode.type node = str "array"
            ∧ (key ≠ str "root" →
               JsonNode.key node
               = key ++ str " [" ++ decimal (N.of_nat (length items)) ++ str "]")
            ∧ (key = str "root" → path = [] → JsonNode.key node = str "root")
        | JObject fields =>
            JsonNode.type node = str "object"
            ∧ (key ≠ str "root" →
               JsonNode.key node
               = key ++ str " {" ++ decimal (N.of_nat (length fields)) ++ str "}")
            ∧ (key = str "root" → path = [] → JsonNode.key node = str "root")
        | JNull => JsonNode.type node = str "null" ∧ JsonNode.key node = key
        | JBoolean _ =>
            JsonNode.type node = str "boolean" ∧ JsonNode.key node = key
        | JNumber _ =>
            JsonNode.type node = str "number" ∧ JsonNode.key node = key
        | JString _ =>
            JsonNode.type node = str "string" ∧ JsonNode.key node = key
        end.
Proof.
  intros E obj key path. destruct obj as [ | b | x | s | items | fields].
  - by eexists _, _.
  - by eexists _, _.
  - by eexists _, _.
  - by eexists _, _.
  - rewrite buildJsonTree_array. eexists _, _. split; [done|]. simpl.
    split_and!; [done|..]; intros; by case_decide.
  - rewrite buildJsonTree_object. eexists _, _. split; [done|]. simpl.
    rewrite length_Object_keys, length_fmap.
    split_and!; [done|..]; intros; by case_decide.
Qed.

Lemma display_key_and_type_tag_witness :
  ∃ node rest,
    buildJsonTree ∅ (JArray [num 1; num 2]) (str "f") (str "root")
    = node :: rest
    ∧ JsonNode.key node = str "f [2]".
Proof.
  destruct (display_key_and_type_tag ∅ (JArray [num 1; num 2]) (str "f")
              (str "root")) as (node & rest & Heq & _ & Hkey & _).
  exists node, rest. split; [exact Heq|].
  rewrite Hkey; [reflexivity|discriminate].
Defined.

(** C7 as stated fails at the root: the node for the array [[1,2]] built by
    the top-level call shows ['root'], which does not end in [[2]]. *)
Lemma root_display_key_has_no_count :
  ∃ node rest,
    buildJsonTree ∅ (JArray [num 1; num 2]) (str "root") [] = node :: rest
    ∧ JsonNode.key node = str "root"
    ∧ ¬ (str "[2]" `suffix_of` JsonNode.key node).
Proof.
  eexists _, _. split; [reflexivity|]. split; [reflexivity|].
  intros [prefix Heq]. vm_compute in Heq.
  destruct prefix as [|? [|? [|? [|? [|? ?]]]]]; discriminate.
Qed.

(** ** Toggling *)

Lemma toggle_toggle (p : list N) (X : gset (list N)) :
  toggle p (toggle p X) = X.
Proof.
  destruct (decide (p ∈ X)) as [Hin|Hnin].
  - assert (H2 : p ∉ X ∖ {[p]}) by set_solver.
    unfold toggle at 2. rewrite (bool_decide_eq_true_2 _ Hin).
    unfold toggle. rewrite (bool_decide_eq_false_2 _ H2).
    apply set_eq. intros q. destruct (decide (q = p)); set_solver.
  - assert (H2 : p ∈ X ∪ {[p]}) by set_solver.
    unfold toggle at 2. rewrite (bool_decide_eq_false_2 _ Hnin).
    unfold toggle. rewrite (bool_decide_eq_true_2 _ H2). set_solver.
Qed.

(** C8. [toggleNode] flips the membership of its path and of no other path,
    so toggling a path twice gives back the same expanded set, and with it
    the same node sequence. *)
Theorem toggle_flips_one_path_and_is_an_involution :
  ∀ (p : list N) (X : gset (list N)),
    (p ∈ toggle p X ↔ p ∉ X)
    ∧ (∀ q, q ≠ p → (q ∈ toggle p X ↔ q ∈ X))
    ∧ toggle p (toggle p X) = X
    ∧ (∀ st, expandedNodes (toggleNode p (toggleNode p st)) = expandedNodes st
             ∧ jsonTree (toggleNode p (toggleNode p st)) = jsonTree st).
Proof.
  intros p X. split_and!.
  - unfold toggle. case_bool_decide; set_solver.
  - intros q Hq. unfold toggle. case_bool_decide; set_solver.
  - apply toggle_toggle.
  - intros [input parsed err Y]. unfold jsonTree, toggleNode. simpl.
    by rewrite toggle_toggle.
Qed.

Lemma toggle_flips_one_path_and_is_an_involution_witness :
  str "root.a" ∈ toggle (str "root") {[str "root"; str "root.a"]}.
Proof.
  apply (toggle_flips_one_path_and_is_an_involution (str "root")
           {[str "root"; str "root.a"]}).
  - discriminate.
  - set_solver.
Defined.

(** ** The "Items" figure *)

(** C9. The "Items" figure is the length of an array root, the number of
    keys of an object root and 1 for any other root; for
    [{"a":1,"b":{"c":2,"d":{"e":3}},"f":[1,2,3]}] it is 3. *)
Theorem top_level_item_count :
  (∀ parsed : json,
     itemsFigure parsed
     = match parsed with
       | JArray items => length items
       | JObject fields => length (fields.*1)
       | JNull | JBoolean _ | JNumber _ | JString _ => 1%nat
       end)
  ∧ itemsFigure nested = 3%nat.
Proof.
  split; [|by vm_compute].
  intros [ | b | x | s | items | fields]; try done.
  unfold itemsFigure. simpl. apply length_Object_keys.
Qed.

(** ** Pre-order *)

Lemma preorder_Node v p children :
  preorder (Node v p children) = (v, p) :: (children ≫= preorder).
Proof. reflexivity. Qed.

Lemma visibleTree_children_array order E p items i :
  (fix elements (l : list json) (index : N) : list tree :=
     match l with
     | [] => []
     | item :: l' =>
         visibleTree order E item (str "[" ++ decimal index ++ str "]") p
           :: elements l' (N.succ index)
     end) items i
  = (λ '(index, item), visibleTree order E item (indexKey index) p)
      <$> enumFrom i items.
Proof.
  revert i. induction items as [|item items IH]; intros i; [done|].
  cbn [enumFrom fmap list_fmap]. by rewrite <- IH.
Qed.

Lemma visibleTree_children_object order E p fields :
  (fix properties (l : list (list N * json)) :=
     match l with
     | [] => []
     | (k, child) :: l' =>
         (k, visibleTree order E child k p) :: properties l'
     end) fields
  = (λ kv, (kv.1, visibleTree order E kv.2 kv.1 p)) <$> fields.
Proof. induction fields as [|[k v] fields IH]; [done|]. simpl. by rewrite IH. Qed.

Lemma buildJsonTree_visibleTree E obj : ∀ key path,
  visited <$> buildJsonTree E obj key path
  = preorder (visibleTree Object_keys E obj key path).
Proof.
  induction obj as [ | b | x | s | items IH | fields IH] using json_ind;
    intros key path;
    try (cbn [visibleTree]; rewrite preorder_Node; by case_bool_decide).
  - rewrite buildJsonTree_array. cbn [visibleTree].
    rewrite preorder_Node, fmap_cons. f_equal.
    case_bool_decide; [|done].
    rewrite visibleTree_children_array. generalize 0.
    induction IH as [|item items Hitem _ IHitems]; intros i; [done|].
    cbn [enumFrom fmap list_fmap mbind list_bind].
    by rewrite fmap_app, Hitem, IHitems.
  - rewrite buildJsonTree_object. cbn [visibleTree].
    rewrite preorder_Node, fmap_cons. f_equal.
    case_bool_decide; [|done].
    rewrite visibleTree_children_object.
    induction (Object_keys (fields.*1)) as [|k keys IHkeys]; [done|].
    cbn [omap list_omap mbind list_bind]. rewrite fmap_app, IHkeys.
    rewrite (get_fmap (λ k child,
               visibleTree Object_keys E child k (currentPathOf key path))).
    destruct (get fields k) as [child|] eqn:Hget; [|done].
    cbn [fmap option_fmap option_map mbind list_bind]. f_equal.
    apply get_Some_elem_of in Hget. rewrite Forall_forall in IH.
    apply (IH _ Hget).
Qed.

(** C1, as the code has it.  A build emits one node for the value itself,
    whatever the expanded set; the nodes after it are the complete results
    of the children, one after the other, when the value is a container
    whose path is expanded, and nothing otherwise.  Elements are taken by
    ascending index; properties are taken in the order of [Object.keys]
    (array-index keys first, ascending, then the other keys as inserted).
    The node list is the pre-order traversal of the visible tree. *)
Theorem buildJsonTree_emits_visible_tree_in_preorder :
  ∀ (expanded : gset (list N)) (obj : json) (key path : list N),
    (∃ node,
       JsonNode.value node = obj
       ∧ JsonNode.path node = currentPathOf key path
       ∧ buildJsonTree expanded obj key path
         = node ::
           (if isContainer obj && bool_decide (currentPathOf key path ∈ expanded)
            then match obj with
                 | JArray items =>
                     enumFrom 0 items ≫= (λ '(index, item),
                       buildJsonTree expanded item (indexKey index)
                         (currentPathOf key path))
                 | JObject fields =>
                     Object_keys (fields.*1) ≫= (λ objKey,
                       match get fields objKey with
                       | Some child =>
                           buildJsonTree expanded child objKey
                             (currentPathOf key path)
                       | None => []
                       end)
                 | _ => []
                 end
            else []))
    ∧ visited <$> buildJsonTree expanded obj key path
      = preorder (visibleTree Object_keys expanded obj key path).
Proof.
  intros E obj key path. split; [|apply buildJsonTree_visibleTree].
  destruct obj as [ | b | x | s | items | fields];
    try (by eexists; split_and!; [| |reflexivity]).
  - rewrite buildJsonTree_array. eexists. split_and!; [| |reflexivity]; done.
  - rewrite buildJsonTree_object. eexists. split_and!; [| |reflexivity]; done.
Qed.

(** C1 as stated fails on the order of properties: for the object parsed
    from [{"b":1,"0":2}], with the root expanded, the property ["0"] is
    visited before ["b"], which is not the order of insertion. *)
Lemma properties_not_visited_in_insertion_order :
  let obj := JObject [(str "b", num 1); (str "0", num 2)] in
  JsonNode.path <$> buildJsonTree {[str "root"]} obj (str "root") []
  = [str "root"; str "root.0"; str "root.b"]
  ∧ visited <$> buildJsonTree {[str "root"]} obj (str "root") []
    ≠ preorder (visibleTree insertionOrder {[str "root"]} obj (str "root") []).
Proof.
  split; [by vm_compute|]. intros Heq. vm_compute in Heq. discriminate Heq.
Qed.

(** ** Error location *)

(** [lastIndexOf] is the greatest index holding [c], or [-1]. *)
Lemma lastIndexOf_spec c s :
  (lastIndexOf c s = -1 ∧ c ∉ s)%Z
  ∨ ∃ i : nat, lastIndexOf c s = Z.of_nat i ∧ s !! i = Some c
               ∧ ∀ j, (i < j)%nat → s !! j ≠ Some c.
Proof.
  induction s as [|d s IH]; cbn [lastIndexOf].
  - left. split; [done|]. apply not_elem_of_nil.
  - destruct IH as [[-> Hnin]|(i & -> & Hi & Hlast)].
    + rewrite decide_False by lia. case_decide as Hd.
      * subst d. right. exists 0%nat. split_and!; [done..|].
        intros [|j] Hj; [lia|]. simpl. intros Hc.
        apply Hnin. by eapply list_elem_of_lookup_2.
      * left. split; [done|]. by intros [->|?]%elem_of_cons.
    + rewrite decide_True by lia. right. exists (S i). split_and!.
      * lia.
      * done.
      * intros [|j] Hj; [lia|]. simpl. apply Hlast. lia.
Qed.

Lemma split_lastIndexOf c s :
  ∃ piece pieces lastLine,
    split c s = piece :: pieces
    ∧ length pieces = length (filter (λ d, d = c) s)
    ∧ (lastIndexOf c s = -1 ↔ pieces = [])%Z
    ∧ (-1 ≤ lastIndexOf c s)%Z
    ∧ last (piece :: pieces) = Some lastLine
    ∧ (Z.of_nat (length lastLine) + 1
       = Z.of_nat (length s) - lastIndexOf c s)%Z.
Proof.
  induction s as [|d s IH]; cbn [split lastIndexOf].
  - exists [], [], []. by split_and!.
  - destruct IH as (piece & pieces & lastLine & -> & Hlen & Hnone & Hge & Hlast & Hcol).
    rewrite filter_cons. destruct (decide (d = c)) as [->|Hd].
    + exists [], (piece :: pieces), lastLine.
      split_and!; [done|simpl; lia|split; [|done]|..].
      * case_decide; lia.
      * case_decide; lia.
      * done.
      * case_decide; simpl length; [lia|].
        assert (lastIndexOf c s = -1)%Z by lia. lia.
    + destruct pieces as [|piece' pieces].
      * exists (d :: piece), [], (d :: piece).
        assert (Hr : (lastIndexOf c s = -1)%Z) by by apply Hnone.
        rewrite Hr in *. rewrite decide_False by lia.
        injection Hlast as <-.
        split_and!; [done..|]. simpl length in *. lia.
      * exists (d :: piece), (piece' :: pieces), lastLine.
        assert (Hr : (lastIndexOf c s ≠ -1)%Z) by (intros ?%Hnone; done).
        rewrite decide_True by lia.
        split_and!; [done|done|split; [lia|done]|lia|done|].
        simpl length in *. lia.
Qed.

Lemma locateError_total input message : is_Some (locateError input message).
Proof.
  unfold locateError.
  destruct (split_lastIndexOf 10 (substring0 input (errorPosition message)))
    as (piece & pieces & lastLine & -> & _ & _ & _ & Hlast & _).
  rewrite last_lookup, <- Nat.sub_1_r in Hlast.
  rewrite Hlast. eauto.
Qed.

(** C3. Let [offset] be the position the code takes from the message of
    the failed parse, the number after ["position "] or 0 when the message
    has none, and let it lie within the text (it may equal its length).
    Then the error is built (no lookup is
    out of bounds), it keeps the message and the offset, its line is one
    more than the number of newlines in [text[0:offset]], and its column is
    [offset] minus the index of the last newline before [offset] ([-1] when
    there is none). *)
Theorem error_line_and_column (input message : list N) (offset : N) :
  errorPosition message = Integer offset →
  (N.to_nat offset ≤ length input)%nat →
  (match_position message = None → offset = 0)
  ∧ ∃ e,
      locateError input message = Some e
      ∧ JsonError.message e = message
      ∧ JsonError.position e = Integer offset
      ∧ JsonError.line e
        = (1 + countNewlines (take (N.to_nat offset) input))%nat
      ∧ Z.of_nat (JsonError.column e)
        = (Z.of_N offset
           - lastIndexOf 10 (take (N.to_nat offset) input))%Z.
Proof.
  intros Hoffset Hle. split.
  { unfold errorPosition in Hoffset. intros Hnone.
    rewrite Hnone in Hoffset. by injection Hoffset. }
  unfold locateError, countNewlines. rewrite Hoffset. cbn [substring0].
  destruct (split_lastIndexOf 10 (take (N.to_nat offset) input))
    as (piece & pieces & lastLine & -> & Hlen & _ & _ & Hlast & Hcol).
  rewrite last_lookup, <- Nat.sub_1_r in Hlast.
  rewrite Hlast. eexists. split; [done|]. cbn.
  rewrite length_take_le in Hcol by done.
  split_and!; [done|done|lia|lia].
Qed.

Lemma error_line_and_column_witness :
  ∃ e, locateError malformed
         (str "Unexpected token } in JSON at position 6") = Some e
       ∧ JsonError.line e = 1%nat
       ∧ Z.of_nat (JsonError.column e) = 7%Z.
Proof.
  destruct (error_line_and_column malformed
              (str "Unexpected token } in JSON at position 6") 6)
    as [_ (e & He & _ & _ & Hline & Hcolumn)].
  - vm_compute. reflexivity.
  - vm_compute. lia.
  - exists e. split; [exact He|]. split; [exact Hline|exact Hcolumn].
Defined.

Example error_at_end_of_input :
  locateError (str "[1," ++ [10] ++ str "2,")
    (str "Unexpected end of JSON input at position 6")
  = Some {| JsonError.message := str "Unexpected end of JSON input at position 6";
            JsonError.line := 2; JsonError.column := 3;
            JsonError.position := Integer 6 |}.
Proof. vm_compute. reflexivity. Qed.

(** ** Blank input *)

Lemma trimStart_nil s :
  trimStart s = [] ↔ Forall (λ c, isWhiteSpace c = true) s.
Proof.
  induction s as [|c s IH]; cbn [trimStart]; [by split|].
  destruct (isWhiteSpace c) eqn:Hc.
  - rewrite IH. split; [by constructor|by inversion 1].
  - split; [done|]. inversion 1; congruence.
Qed.

Lemma trimStart_whitespace s :
  Forall (λ c, isWhiteSpace c = true) (trimStart s) → trimStart s = [].
Proof.
  induction s as [|c s IH]; cbn [trimStart]; [done|].
  destruct (isWhiteSpace c) eqn:Hc; [done|]. inversion 1; congruence.
Qed.

Lemma trim_nil s : trim s = [] ↔ Forall (λ c, isWhiteSpace c = true) s.
Proof.
  unfold trim. split.
  - intros H. apply (f_equal reverse) in H.
    rewrite reverse_involutive, reverse_nil in H.
    apply trimStart_nil, Forall_reverse, trimStart_whitespace in H.
    by apply trimStart_nil.
  - intros H. apply trimStart_nil in H. by rewrite H.
Qed.

Section EngineProperties.

Variable JSON_parse : list N → json + list N.

Local Abbreviation parseJsonWithError := (parseJsonWithError JSON_parse).
Local Abbreviation step := (step JSON_parse).
Local Abbreviation reachable := (reachable JSON_parse).

(** C5. For an input that is empty or made of white space only, the parse
    leaves no parsed value and no error. *)
Theorem blank_input_gives_no_value_and_no_error
    (st : AppState) (input : list N) :
  Forall (λ c, isWhiteSpace c = true) input →
  parsedJson (parseJsonWithError input st) = JNull
  ∧ jsonError (parseJsonWithError input st) = None.
Proof.
  intros Hblank%trim_nil. unfold parseJsonWithError.
  by rewrite Hblank.
Qed.

(** C6. After a parse, the parsed value is null or the error is null.  The
    two cells are written by every parse, whatever they held before: a
    successful parse stores the value and clears the error, a failing one
    clears the value and stores the located error. *)
Theorem value_and_error_are_exclusive (st : AppState) (input : list N) :
  (parsedJson (parseJsonWithError input st) = JNull
   ∨ jsonError (parseJsonWithError input st) = None)
  ∧ (∀ st2,
       parsedJson (parseJsonWithError input st2)
       = parsedJson (parseJsonWithError input st)
       ∧ jsonError (parseJsonWithError input st2)
         = jsonError (parseJsonWithError input st))
  ∧ (∀ parsed,
       nonempty (trim input) = true → JSON_parse input = inl parsed →
       parsedJson (parseJsonWithError input st) = parsed
       ∧ jsonError (parseJsonWithError input st) = None)
  ∧ (∀ message,
       nonempty (trim input) = true → JSON_parse input = inr message →
       parsedJson (parseJsonWithError input st) = JNull
       ∧ jsonError (parseJsonWithError input st) = locateError input message
       ∧ is_Some (jsonError (parseJsonWithError input st))).
Proof.
  unfold parseJsonWithError. split_and!.
  - destruct (nonempty (trim input)); cbn [negb]; [|by right].
    destruct (JSON_parse input) as [parsed|message]; [by right|].
    left. by destruct (locateError input message).
  - intros st2. destruct (nonempty (trim input)); cbn [negb]; [|done].
    destruct (JSON_parse input) as [parsed|message]; [done|].
    by destruct (locateError_total input message) as [e ->].
  - intros parsed -> ->. done.
  - intros message -> ->. cbn [negb].
    destruct (locateError_total input message) as [e ->]. eauto.
Qed.

(** ** The expansion set *)

Lemma autoExpandRoot_nonempty st :
  ToBoolean (parsedJson (autoExpandRoot st)) = true →
  expandedNodes (autoExpandRoot st) ≠ ∅.
Proof.
  unfold autoExpandRoot.
  destruct (ToBoolean (parsedJson st)) eqn:Htruthy; cbn [andb].
  - case_bool_decide as Hsize; cbn.
    + intros _ Hempty.
      assert (str "root" ∈ (∅ : gset (list N)))
        by (rewrite <- Hempty; set_solver).
      set_solver.
    + intros _ Hempty. rewrite Hempty, size_empty in Hsize. done.
  - congruence.
Qed.

Lemma autoExpandRoot_empty st :
  ToBoolean (parsedJson st) = true → expandedNodes st = ∅ →
  expandedNodes (autoExpandRoot st) = {[ str "root" ]}.
Proof.
  intros Htruthy Hempty. unfold autoExpandRoot.
  rewrite Htruthy, Hempty, size_empty. done.
Qed.

Lemma autoExpandRoot_parsedJson st :
  parsedJson (autoExpandRoot st) = parsedJson st.
Proof. unfold autoExpandRoot. by destruct (_ && _). Qed.

Lemma parseJsonWithError_expandedNodes input st :
  expandedNodes (parseJsonWithError input st) = expandedNodes st.
Proof.
  unfold parseJsonWithError. destruct (negb _); [done|].
  destruct (JSON_parse input) as [parsed|message]; [done|].
  by destruct (locateError input message).
Qed.

(** C10, for truthy values.  The test of the effect, as of everything the
    component shows, is that [parsedJson] is truthy.  In every reachable
    state whose parsed value is truthy the expanded set is not empty.  An event that would leave it empty, be it a new input met with
    an empty set or the collapse of the last expanded path, ends with the
    set reset to [{"root"}]; so collapsing the root when it alone is
    expanded leaves it expanded. *)
Theorem expanded_set_is_never_left_empty :
  (∀ st, reachable st → ToBoolean (parsedJson st) = true →
         expandedNodes st ≠ ∅)
  ∧ (∀ st p,
       ToBoolean (parsedJson st) = true →
       toggle p (expandedNodes st) = ∅ →
       expandedNodes (step (ToggleNode p) st) = {[ str "root" ]})
  ∧ (∀ st text,
       expandedNodes st = ∅ →
       ToBoolean (parsedJson (step (SetJsonInput text) st)) = true →
       expandedNodes (step (SetJsonInput text) st) = {[ str "root" ]})
  ∧ (∀ st,
       ToBoolean (parsedJson st) = true →
       expandedNodes st = {[ str "root" ]} →
       expandedNodes (step (ToggleNode (str "root")) st) = {[ str "root" ]}).
Proof.
  assert (Htoggle : ∀ st p,
    ToBoolean (parsedJson st) = true → toggle p (expandedNodes st) = ∅ →
    expandedNodes (step (ToggleNode p) st) = {[ str "root" ]}).
  { intros st p Htruthy Hempty. unfold step. by apply autoExpandRoot_empty. }
  split_and!.
  - intros st Hreach Htruthy. destruct Hreach as [|ev st Hreach].
    + discriminate Htruthy.
    + by apply autoExpandRoot_nonempty.
  - exact Htoggle.
  - intros st text Hempty Htruthy. unfold step in *.
    rewrite autoExpandRoot_parsedJson in Htruthy.
    apply autoExpandRoot_empty; [done|].
    by rewrite parseJsonWithError_expandedNodes.
  - intros st Htruthy Hroot. apply Htoggle; [done|].
    rewrite Hroot. unfold toggle.
    rewrite bool_decide_eq_true_2 by set_solver. set_solver.
Qed.

(** Toggling at the level of events.  The auto-expansion of the root does
    not disturb the involution: clicking twice on a node that is on screen
    brings the whole state back. *)
Lemma collapsed_root_shows_one_node E obj :
  str "root" ∉ E →
  JsonNode.path <$> buildJsonTree E obj (str "root") [] = [str "root"].
Proof.
  intros Hroot. destruct obj as [ | b | x | s | items | fields]; try done.
  - rewrite buildJsonTree_array.
    change (currentPathOf (str "root") []) with (str "root").
    by rewrite (bool_decide_eq_false_2 _ Hroot).
  - rewrite buildJsonTree_object.
    change (currentPathOf (str "root") []) with (str "root").
    by rewrite (bool_decide_eq_false_2 _ Hroot).
Qed.

Lemma autoExpandRoot_id st :
  expandedNodes st ≠ ∅ → autoExpandRoot st = st.
Proof.
  intros Hne. unfold autoExpandRoot.
  rewrite bool_decide_eq_false_2, andb_false_r; [done|].
  intros Hsize. apply Hne. by apply leibniz_equiv, size_empty_inv.
Qed.

Lemma double_toggle_of_visible_node (st : AppState) (p : list N) :
  reachable st → p ∈ (JsonNode.path <$> jsonTree st) →
  step (ToggleNode p) (step (ToggleNode p) st) = st.
Proof.
  intros Hreach Hvisible.
  assert (Htruthy : ToBoolean (parsedJson st) = true).
  { unfold jsonTree in Hvisible. destruct (ToBoolean (parsedJson st)); [done|].
    by apply elem_of_nil in Hvisible. }
  assert (Hne : expandedNodes st ≠ ∅).
  { destruct Hreach as [|ev st' _]; [discriminate Htruthy|].
    by apply autoExpandRoot_nonempty. }
  unfold jsonTree in Hvisible. rewrite Htruthy in Hvisible.
  destruct (decide (toggle p (expandedNodes st) = ∅)) as [Hempty|Hnonempty].
  - assert (Hsingle : expandedNodes st = {[ p ]}).
    { unfold toggle in Hempty. case_bool_decide as Hin; [|set_solver].
      apply set_eq. intros q. split; [|set_solver]. intros Hq.
      destruct (decide (q = p)) as [->|Hqp]; [set_solver|].
      assert (q ∈ expandedNodes st ∖ {[p]}) as Hq' by set_solver.
      rewrite Hempty in Hq'. set_solver. }
    assert (p = str "root") as ->.
    { destruct (decide (str "root" ∈ expandedNodes st)) as [Hroot|Hroot].
      - rewrite Hsingle in Hroot. set_solver.
      - rewrite collapsed_root_shows_one_node in Hvisible by done.
        by apply list_elem_of_singleton in Hvisible. }
    assert (Hstep : step (ToggleNode (str "root")) st = st).
    { unfold step, autoExpandRoot, toggleNode. cbn.
      rewrite Htruthy, Hempty, size_empty. cbn.
      destruct st as [input parsed err X]. cbn in *. by rewrite Hsingle. }
    by rewrite !Hstep.
  - assert (Hstep : step (ToggleNode p) st = toggleNode p st).
    { unfold step. by apply autoExpandRoot_id. }
    rewrite Hstep. unfold step. rewrite autoExpandRoot_id.
    + destruct st as [input parsed err X].
      unfold toggleNode, setExpandedNodes. cbn. by rewrite toggle_toggle.
    + unfold toggleNode, setExpandedNodes. cbn. by rewrite toggle_toggle.
Qed.

End EngineProperties.

Lemma blank_input_gives_no_value_and_no_error_witness :
  parsedJson (parseJsonWithError sampleEngine [32; 10; 9] initialState) = JNull
  ∧ jsonError (parseJsonWithError sampleEngine [32; 10; 9] initialState) = None.
Proof.
  apply (blank_input_gives_no_value_and_no_error sampleEngine initialState).
  repeat constructor.
Defined.

Lemma value_and_error_are_exclusive_witness :
  (parsedJson (parseJsonWithError sampleEngine (str "[]") initialState)
   = JArray []
   ∧ jsonError (parseJsonWithError sampleEngine (str "[]") initialState) = None)
  ∧ parsedJson (parseJsonWithError sampleEngine malformed initialState)
    = JNull.
Proof.
  split.
  - apply (value_and_error_are_exclusive sampleEngine initialState (str "[]")).
    + vm_compute. reflexivity.
    + vm_compute. reflexivity.
  - eapply (value_and_error_are_exclusive sampleEngine initialState malformed).
    + vm_compute. reflexivity.
    + vm_compute. reflexivity.
Defined.

Lemma expanded_set_is_never_left_empty_witness :
  expandedNodes (step sampleEngine (SetJsonInput (str "[]")) initialState) ≠ ∅
  ∧ expandedNodes
      (step sampleEngine (ToggleNode (str "root"))
         (step sampleEngine (SetJsonInput (str "[]")) initialState))
    = {[ str "root" ]}.
Proof.
  split.
  - apply (expanded_set_is_never_left_empty sampleEngine).
    + apply reachable_step, reachable_initial.
    + vm_compute. reflexivity.
  - apply (expanded_set_is_never_left_empty sampleEngine).
    + vm_compute. reflexivity.
    + vm_compute. reflexivity.
Defined.

(** A root that is falsy ([null], [false], [0] or the empty string) counts
    as no value for the component: no tree is shown and the expanded set is
    left as it is. *)
Example falsy_root_shows_nothing :
  let st := step sampleEngine (SetJsonInput (str "0")) initialState in
  parsedJson st = JNumber (NumZero false)
  ∧ jsonError st = None ∧ jsonTree st = [] ∧ expandedNodes st = ∅.
Proof. vm_compute. repeat split. Qed.

(** C10 as stated fails for a parsed value that is falsy: after the input
    [0] the state holds the value [0] and no error, and its expanded set is
    empty. *)
Lemma expanded_set_is_empty_with_a_falsy_value :
  ∃ st, reachable sampleEngine st
        ∧ parsedJson st = JNumber (NumZero false)
        ∧ parsedJson st ≠ JNull
        ∧ jsonError st = None
        ∧ expandedNodes st = ∅.
Proof.
  exists (step sampleEngine (SetJsonInput (str "0")) initialState).
  split; [apply reachable_step, reachable_initial|].
  vm_compute. by repeat split.
Qed.

Example malformed_text_is_located :
  jsonError (step sampleEngine (SetJsonInput malformed) initialState)
  = Some {| JsonError.message := str "Unexpected token } in JSON at position 6";
            JsonError.line := 1; JsonError.column := 7;
            JsonError.position := Integer 6 |}.
Proof. vm_compute. reflexivity. Qed.

(** ** Paths *)

Lemma uint_units_digits d : Forall (λ c, 48 ≤ c ≤ 57) (uint_units d).
Proof. induction d; constructor; try done; unfold digit_unit; lia. Qed.

Lemma uint_units_inj d1 d2 : uint_units d1 = uint_units d2 → d1 = d2.
Proof.
  revert d2. induction d1 as [|d1 IH|d1 IH|d1 IH|d1 IH|d1 IH|d1 IH|d1 IH
                             |d1 IH|d1 IH|d1 IH];
    intros [|d2|d2|d2|d2|d2|d2|d2|d2|d2|d2] Heq;
    try discriminate Heq; try done;
    injection Heq as Heq; f_equal; by apply IH.
Qed.

Lemma decimal_inj i j : decimal i = decimal j → i = j.
Proof.
  intros Heq%uint_units_inj.
  by rewrite <- (DecimalN.Unsigned.of_to i), <- (DecimalN.Unsigned.of_to j), Heq.
Qed.

Lemma indexKey_inj i j : indexKey i = indexKey j → i = j.
Proof.
  unfold indexKey. intros Heq%app_inv_head%app_inv_tail.
  by apply decimal_inj.
Qed.

Lemma indexKey_no_dot i : 46 ∉ indexKey i.
Proof.
  unfold indexKey, decimal. rewrite !not_elem_of_app. split_and!.
  - by intros ?%list_elem_of_singleton.
  - intros Hin. pose proof (uint_units_digits (N.to_uint i)) as Hd.
    rewrite Forall_forall in Hd. apply Hd in Hin. lia.
  - by intros ?%list_elem_of_singleton.
Qed.

Lemma dot_free_split k1 k2 r1 r2 :
  46 ∉ k1 → 46 ∉ k2 →
  (r1 = [] ∨ ∃ r, r1 = 46 :: r) → (r2 = [] ∨ ∃ r, r2 = 46 :: r) →
  k1 ++ r1 = k2 ++ r2 → k1 = k2.
Proof.
  revert k2. induction k1 as [|c k1 IH]; intros [|c2 k2] H1 H2 Hr1 Hr2 Heq.
  - done.
  - simpl in Heq. destruct Hr1 as [->|[r ->]]; [done|].
    injection Heq as <- _. exfalso. apply H2. left.
  - simpl in Heq. destruct Hr2 as [->|[r ->]]; [done|].
    injection Heq as -> _. exfalso. apply H1. left.
  - simpl in Heq. injection Heq as -> Heq. f_equal.
    apply (IH k2); [| |done..].
    + intros ?. apply H1. by right.
    + intros ?. apply H2. by right.
Qed.

Lemma currentPathOf_child k p : p ≠ [] → currentPathOf k p = p ++ 46 :: k.
Proof. unfold currentPathOf. by destruct p. Qed.

Lemma currentPathOf_child_nonempty k p : p ≠ [] → currentPathOf k p ≠ [].
Proof. intros Hp. rewrite currentPathOf_child by done. by destruct p. Qed.

Lemma extends_child k p q :
  p ≠ [] → extends (currentPathOf k p) q → extends p q ∧ q ≠ p.
Proof.
  intros Hp (r & -> & Hr). rewrite currentPathOf_child by done.
  rewrite <- app_assoc. split; [by eexists; eauto|].
  rewrite <- (app_nil_r p) at 2. by intros ?%app_inv_head.
Qed.

Lemma children_paths_disjoint k1 k2 p q :
  p ≠ [] → 46 ∉ k1 → 46 ∉ k2 →
  extends (currentPathOf k1 p) q → extends (currentPathOf k2 p) q → k1 = k2.
Proof.
  intros Hp H1 H2 (r1 & -> & Hr1) (r2 & Heq & Hr2).
  rewrite !currentPathOf_child, <- !app_assoc in Heq by done.
  apply app_inv_head in Heq. injection Heq as Heq.
  by apply (dot_free_split k1 k2 r1 r2).
Qed.

Lemma buildJsonTree_paths_extend E obj : ∀ key path,
  currentPathOf key path ≠ [] →
  Forall (λ node, extends (currentPathOf key path) (JsonNode.path node))
         (buildJsonTree E obj key path).
Proof.
  assert (Hself : ∀ p, extends p p).
  { intros p. exists []. by rewrite app_nil_r; auto. }
  induction obj as [ | b | x | s | items IH | fields IH] using json_ind;
    intros key path Hp; try by repeat constructor.
  - rewrite buildJsonTree_array. constructor; [apply Hself|].
    case_bool_decide; [|constructor].
    apply Forall_bind, Forall_forall. intros [i item] Hin.
    apply enumFrom_elem_of in Hin. rewrite Forall_forall in IH.
    eapply Forall_impl; [apply (IH _ Hin)|].
    + by apply currentPathOf_child_nonempty.
    + intros node Hnode. cbv beta in Hnode. by apply extends_child in Hnode as [? _].
  - rewrite buildJsonTree_object. constructor; [apply Hself|].
    case_bool_decide; [|constructor].
    apply Forall_bind, Forall_forall. intros k _. unfold compose.
    destruct (get fields k) as [child|] eqn:Hget; [|constructor].
    apply get_Some_elem_of in Hget. rewrite Forall_forall in IH.
    eapply Forall_impl; [apply (IH _ Hget)|].
    + by apply currentPathOf_child_nonempty.
    + intros node Hnode. cbv beta in Hnode. by apply extends_child in Hnode as [? _].
Qed.

Lemma array_index_decimal k i : array_index k = Some i → decimal i = k.
Proof.
  unfold array_index. destruct (units_uint k); [|done].
  case_decide as Hd; [|done]. destruct Hd as [Hd _]. by intros [= <-].
Qed.

Lemma Object_keys_Permutation keys : Object_keys keys ≡ₚ keys.
Proof.
  unfold Object_keys. rewrite merge_sort_Permutation.
  induction keys as [|k keys IH]; [done|].
  rewrite filter_cons. cbn [omap list_omap].
  destruct (array_index k) as [i|] eqn:Hk.
  - rewrite decide_False by done. cbn [fmap list_fmap app].
    rewrite (array_index_decimal _ _ Hk). by constructor.
  - rewrite decide_True by done. cbn [mbind option_bind].
    by rewrite <- Permutation_middle, IH.
Qed.

Lemma enumFrom_ge {A} (l : list A) i j x : (j, x) ∈ enumFrom i l → i ≤ j.
Proof.
  revert i. induction l as [|y l IH]; intros i; cbn [enumFrom].
  - by intros ?%elem_of_nil.
  - intros [[= -> ->]|Hin%IH]%elem_of_cons; lia.
Qed.

Lemma enumFrom_functional {A} (l : list A) i j x y :
  (j, x) ∈ enumFrom i l → (j, y) ∈ enumFrom i l → x = y.
Proof.
  revert i. induction l as [|z l IH]; intros i; cbn [enumFrom].
  - by intros ?%elem_of_nil.
  - intros [[= -> ->]|Hx]%elem_of_cons [[= ->]|Hy]%elem_of_cons.
    + done.
    + subst. apply enumFrom_ge in Hy. lia.
    + subst. apply enumFrom_ge in Hx. lia.
    + by eapply IH.
Qed.

Lemma NoDup_enumFrom {A} (l : list A) i : NoDup (enumFrom i l).
Proof.
  revert i. induction l as [|x l IH]; intros i; cbn [enumFrom]; constructor.
  - intros Hin%enumFrom_ge. lia.
  - apply IH.
Qed.

Lemma wf_json_array items :
  wf_json (JArray items) = true → Forall (λ x, wf_json x = true) items.
Proof.
  cbn [wf_json]. induction items as [|x items IH]; [constructor|].
  intros [? ?]%andb_true_iff. constructor; auto.
Qed.

Lemma wf_json_object fields :
  wf_json (JObject fields) = true →
  NoDup (fields.*1) ∧ Forall (λ kv, wf_json kv.2 = true) fields.
Proof.
  cbn [wf_json]. intros [Hnodup%bool_decide_eq_true Hall]%andb_true_iff.
  split; [done|]. clear Hnodup.
  induction fields as [|[k x] fields IH]; [constructor|].
  apply andb_true_iff in Hall as [? ?]. constructor; auto.
Qed.

Lemma keysAvoid_array c items :
  keysAvoid c (JArray items) = true → Forall (λ x, keysAvoid c x = true) items.
Proof.
  cbn [keysAvoid]. induction items as [|x items IH]; [constructor|].
  intros [? ?]%andb_true_iff. constructor; auto.
Qed.

Lemma keysAvoid_object c fields :
  keysAvoid c (JObject fields) = true →
  Forall (λ kv, (c ∉ kv.1) ∧ keysAvoid c kv.2 = true) fields.
Proof.
  cbn [keysAvoid]. induction fields as [|[k x] fields IH]; [constructor|].
  intros [[Hk%bool_decide_eq_true ?]%andb_true_iff ?]%andb_true_iff.
  constructor; auto.
Qed.

Lemma fmap_bind {A B C} (g : B → C) (f : A → list B) (l : list A) :
  g <$> (l ≫= f) = l ≫= (λ x, g <$> f x).
Proof.
  induction l as [|x l IH]; [done|].
  cbn [mbind list_bind]. by rewrite fmap_app, IH.
Qed.

Lemma buildJsonTree_paths_NoDup E obj : ∀ key path,
  wf_json obj = true → keysAvoid 46 obj = true →
  currentPathOf key path ≠ [] →
  NoDup (JsonNode.path <$> buildJsonTree E obj key path).
Proof.
  induction obj as [ | b | x | s | items IH | fields IH] using json_ind;
    intros key path Hwf Hdot Hp;
    try (apply NoDup_singleton).
  - rewrite buildJsonTree_array, fmap_cons. cbn [JsonNode.path].
    case_bool_decide; [|apply NoDup_singleton].
    apply wf_json_array in Hwf. apply keysAvoid_array in Hdot.
    rewrite Forall_forall in IH, Hwf, Hdot.
    assert (Hshape : ∀ i item q,
      q ∈ (JsonNode.path <$> buildJsonTree E item (indexKey i)
                               (currentPathOf key path)) →
      extends (currentPathOf (indexKey i) (currentPathOf key path)) q).
    { intros i item q (node & -> & Hnode)%list_elem_of_fmap.
      pose proof (buildJsonTree_paths_extend E item (indexKey i)
                    (currentPathOf key path)
                    (currentPathOf_child_nonempty _ _ Hp)) as Hall.
      rewrite Forall_forall in Hall. by apply Hall. }
    rewrite fmap_bind. constructor.
    + intros ([i item] & Hq & Hin)%list_elem_of_bind.
      apply Hshape, extends_child in Hq as [_ Hq]; done.
    + apply NoDup_bind; [| |apply NoDup_enumFrom].
      * intros [i1 item1] [i2 item2] q Hin1 Hin2 Hq1%Hshape Hq2%Hshape.
        assert (i1 = i2) as ->.
        { apply indexKey_inj.
          eapply children_paths_disjoint; eauto using indexKey_no_dot. }
        f_equal. by eapply enumFrom_functional.
      * intros [i item] Hin%enumFrom_elem_of.
        apply IH; auto using currentPathOf_child_nonempty.
  - rewrite buildJsonTree_object, fmap_cons. cbn [JsonNode.path].
    case_bool_decide; [|apply NoDup_singleton].
    apply wf_json_object in Hwf as [Hnodup Hwf].
    apply keysAvoid_object in Hdot.
    rewrite Forall_forall in IH, Hwf, Hdot.
    assert (Hshape : ∀ k q,
      q ∈ (JsonNode.path <$>
             match get fields k with
             | Some child =>
                 buildJsonTree E child k (currentPathOf key path)
             | None => []
             end) →
      (46 ∉ k) ∧ extends (currentPathOf k (currentPathOf key path)) q).
    { intros k q (node & -> & Hnode)%list_elem_of_fmap.
      destruct (get fields k) as [child|] eqn:Hget;
        [|by apply elem_of_nil in Hnode].
      apply get_Some_elem_of in Hget. split; [by apply (Hdot _ Hget)|].
      pose proof (buildJsonTree_paths_extend E child k
                    (currentPathOf key path)
                    (currentPathOf_child_nonempty _ _ Hp)) as Hall.
      rewrite Forall_forall in Hall. by apply Hall. }
    rewrite fmap_bind. constructor.
    + intros (k & Hq & Hin)%list_elem_of_bind.
      apply Hshape in Hq as [_ Hq]. apply extends_child in Hq as [_ Hq]; done.
    + apply NoDup_bind.
      * intros k1 k2 q _ _ [? ?]%Hshape [? ?]%Hshape.
        by eapply children_paths_disjoint.
      * intros k _. destruct (get fields k) as [child|] eqn:Hget;
          [|constructor].
        apply get_Some_elem_of in Hget.
        apply (IH _ Hget); [by apply (Hwf _ Hget)|by apply (Hdot _ Hget)|].
        by apply currentPathOf_child_nonempty.
      * by rewrite Object_keys_Permutation.
Qed.

(** ** Parent and child paths *)

Lemma edges_Node R v p children :
  edges R (Node v p children)
  ↔ Forall (λ child, R p (rootPath child) ∧ edges R child) children.
Proof.
  cbn [edges]. induction children as [|[w q grandchildren] children IH].
  - split; [constructor|done].
  - rewrite Forall_cons, <- IH. cbn [rootPath]. tauto.
Qed.

Lemma strictPrefix_child k p : p ≠ [] → strictPrefix p (currentPathOf k p).
Proof.
  intros Hp. rewrite currentPathOf_child by done. split.
  - by eexists.
  - rewrite <- (app_nil_r p) at 1. by intros ?%app_inv_head.
Qed.

Lemma visibleTree_edges order E obj : ∀ key path,
  currentPathOf key path ≠ [] →
  edges strictPrefix (visibleTree order E obj key path).
Proof.
  induction obj as [ | b | x | s | items IH | fields IH] using json_ind;
    intros key path Hp; cbn [visibleTree]; apply edges_Node;
    try (by case_bool_decide; constructor).
  - case_bool_decide; [|constructor].
    rewrite visibleTree_children_array. apply Forall_fmap, Forall_forall.
    intros [i item] Hin%enumFrom_elem_of. rewrite Forall_forall in IH.
    split.
    + destruct item; by apply strictPrefix_child.
    + apply IH; auto using currentPathOf_child_nonempty.
  - case_bool_decide; [|constructor].
    rewrite visibleTree_children_object. apply Forall_forall.
    intros child (k & _ & Hk)%list_elem_of_omap.
    rewrite (get_fmap (λ k v,
               visibleTree order E v k (currentPathOf key path))) in Hk.
    destruct (get fields k) as [v|] eqn:Hget; [|done].
    injection Hk as <-. apply get_Some_elem_of in Hget.
    rewrite Forall_forall in IH. split.
    + destruct v; by apply strictPrefix_child.
    + apply (IH _ Hget). by apply currentPathOf_child_nonempty.
Qed.

(** C4, as the code has it.  In the node list of one build of a parsed
    value none of whose object keys contains a [.], all paths are distinct
    (objects have pairwise distinct keys, as [JSON.parse] makes them).  For
    every parsed value, the node list is the pre-order of the visible tree,
    and along every edge of that tree the path of the parent is a strict
    prefix of the path of the child. *)
Theorem paths_unique_and_prefixed_by_parent :
  ∀ (expanded : gset (list N)) (obj : json),
    (wf_json obj = true → keysAvoid 46 obj = true →
     NoDup (JsonNode.path <$> buildJsonTree expanded obj (str "root") []))
    ∧ visited <$> buildJsonTree expanded obj (str "root") []
      = preorder (visibleTree Object_keys expanded obj (str "root") [])
    ∧ edges strictPrefix (visibleTree Object_keys expanded obj (str "root") []).
Proof.
  intros E obj. split_and!.
  - intros Hwf Hdot. by apply buildJsonTree_paths_NoDup.
  - apply buildJsonTree_visibleTree.
  - by apply visibleTree_edges.
Qed.

Lemma paths_unique_and_prefixed_by_parent_witness :
  NoDup (JsonNode.path <$>
           buildJsonTree {[str "root"; str "root.b"; str "root.f"]} nested
             (str "root") []).
Proof.
  apply (paths_unique_and_prefixed_by_parent
           {[str "root"; str "root.b"; str "root.f"]} nested).
  - vm_compute. reflexivity.
  - vm_compute. reflexivity.
Defined.

(** C4 as stated fails on uniqueness: in the object parsed from
    [{"a":{"b":1},"a.b":2}], with [root] and [root.a] expanded, the
    property [b] of [a] and the property [a.b] of the root both get the
    path [root.a.b]. *)
Lemma paths_not_unique_with_dotted_key :
  let obj := JObject [(str "a", JObject [(str "b", num 1)]);
                      (str "a.b", num 2)] in
  wf_json obj = true
  ∧ JsonNode.path <$>
      buildJsonTree {[str "root"; str "root.a"]} obj (str "root") []
    = [str "root"; str "root.a"; str "root.a.b"; str "root.a.b"]
  ∧ ¬ NoDup (JsonNode.path <$>
               buildJsonTree {[str "root"; str "root.a"]} obj (str "root") []).
Proof.
  assert (Hpaths :
    JsonNode.path <$>
      buildJsonTree {[str "root"; str "root.a"]}
        (JObject [(str "a", JObject [(str "b", num 1)]); (str "a.b", num 2)])
        (str "root") []
    = [str "root"; str "root.a"; str "root.a.b"; str "root.a.b"])
    by (vm_compute; reflexivity).
  split; [by vm_compute|]. split; [exact Hpaths|].
  cbv zeta. rewrite Hpaths. intros Hnodup.
  apply NoDup_cons in Hnodup as [_ Hnodup].
  apply NoDup_cons in Hnodup as [_ Hnodup].
  apply NoDup_cons in Hnodup as [Hnotin _].
  apply Hnotin. left.
Qed.

(** * Further properties of the component *)

(** ** Marking the error in the text *)

Lemma charAt_drop text position :
  charAt text position ++ substringFrom text (plusOne position)
  = substringFrom text position.
Proof.
  destruct position as [n|]; [|done]. cbn [charAt plusOne substringFrom].
  replace (N.to_nat (n + 1)) with (S (N.to_nat n)) by lia.
  destruct (text !! N.to_nat n) as [c|] eqn:Hc.
  - symmetry. by apply drop_S.
  - apply lookup_ge_None in Hc. by rewrite !drop_ge by lia.
Qed.

Lemma substring0_substringFrom text position :
  substring0 text position ++ substringFrom text position = text.
Proof.
  destruct position as [n|]; cbn [substring0 substringFrom].
  - apply take_drop.
  - apply app_nil_r.
Qed.

(** [roundToDouble] does not go below 2^53 from 2^53 on. *)
Lemma roundToDouble_large m n :
  2 ^ 53 ≤ m → roundToDouble m = Integer n → 2 ^ 53 ≤ n.
Proof.
  intros Hm. unfold roundToDouble.
  destruct (m <? 2 ^ 53) eqn:Hlt; [apply N.ltb_lt in Hlt; lia|].
  cbv zeta.
  assert (Hlog : 53 ≤ N.log2 m).
  { change 53 with (N.log2 (2 ^ 53)). by apply N.log2_le_mono. }
  set (k := N.log2 m - 52).
  assert (Hq : 2 ^ 52 ≤ N.shiftr m k).
  { rewrite N.shiftr_div_pow2.
    apply N.div_le_lower_bound; [by apply N.pow_nonzero|].
    rewrite <- N.pow_add_r.
    replace (k + 52) with (N.log2 m) by (unfold k; lia).
    apply N.log2_spec. lia. }
  match goal with |- context [N.shiftl ?x k] => set (q' := x) end.
  assert (Hq' : 2 ^ 52 ≤ q').
  { unfold q'. destruct (_ || _); lia. }
  destruct (_ <? 2 ^ 1024); [|done].
  intros [= <-]. rewrite N.shiftl_mul_pow2.
  assert (Hk : 2 ^ 1 ≤ 2 ^ k).
  { apply N.pow_le_mono_r; [done|]. unfold k. lia. }
  change (2 ^ 53) with (2 ^ 52 * 2 ^ 1).
  by apply N.mul_le_mono.
Qed.

Lemma roundToDouble_small m : m ≤ 2 ^ 53 → roundToDouble m = Integer m.
Proof.
  intros Hm. destruct (decide (m = 2 ^ 53)) as [->|Hne].
  - vm_compute. reflexivity.
  - unfold roundToDouble.
    destruct (m <? 2 ^ 53) eqn:Hlt; [done|]. apply N.ltb_ge in Hlt. lia.
Qed.

(** [text.substring(position + 1)] with the sum taken in doubles: for a
    text shorter than 2^53, as every string is, it is the suffix the exact
    sum selects. *)
Lemma substringFrom_plusOne text n :
  (N.of_nat (length text) < 2 ^ 53) →
  substringFrom text (roundToDouble (n + 1))
  = substringFrom text (plusOne (Integer n)).
Proof.
  intros Hlen. cbn [plusOne].
  destruct (decide (n + 1 ≤ 2 ^ 53)) as [Hsmall|Hlarge].
  - by rewrite roundToDouble_small.
  - destruct (roundToDouble (n + 1)) as [p|] eqn:Hp; cbn [substringFrom].
    + apply roundToDouble_large in Hp; [|lia]. by rewrite !drop_ge by lia.
    + by rewrite drop_ge by lia.
Qed.

(** X1. [highlightErrorInText] inserts the warning sign at the error
    position, clamped to the end of the text, and changes nothing else: no
    character of a non-empty text is lost, moved or repeated.  Without an
    error, or for an empty text, it returns the text. *)
Theorem highlightErrorInText_inserts_the_sign
    (text : list N) (e : JsonError.t) :
  text ≠ [] →
  highlightErrorInText text None = text
  ∧ highlightErrorInText [] (Some e) = []
  ∧ ∃ before after,
      text = before ++ after
      ∧ length before
        = match JsonError.position e with
          | Integer n => Nat.min (N.to_nat n) (length text)
          | Infinity => length text
          end
      ∧ highlightErrorInText text (Some e) = before ++ warningSign ++ after.
Proof.
  intros Htext. split; [done|]. split; [done|].
  exists (substring0 text (JsonError.position e)),
         (substringFrom text (JsonError.position e)).
  split_and!.
  - by rewrite substring0_substringFrom.
  - destruct (JsonError.position e) as [n|]; cbn [substring0]; [|done].
    by rewrite length_take.
  - unfold highlightErrorInText. destruct text; [done|].
    cbn [nonempty negb]. by rewrite charAt_drop.
Qed.

Lemma highlightErrorInText_inserts_the_sign_witness :
  ∃ before after,
    malformed = before ++ after
    ∧ length before = 6%nat
    ∧ highlightErrorInText malformed
        (Some {| JsonError.message := []; JsonError.line := 1;
                 JsonError.column := 7; JsonError.position := Integer 6 |})
      = before ++ warningSign ++ after.
Proof.
  destruct (highlightErrorInText_inserts_the_sign malformed
              {| JsonError.message := []; JsonError.line := 1;
                 JsonError.column := 7; JsonError.position := Integer 6 |})
    as (_ & _ & before & after & Htext & Hlen & Hmark).
  - discriminate.
  - exists before, after. split; [exact Htext|]. split; [exact Hlen|exact Hmark].
Defined.

(** X2. The overlay shows the characters of the input in order and marks
    the one at the error position, and no other: when the position is at
    or beyond the end of the text, nothing is marked. *)
Theorem errorOverlay_marks_the_error_position
    (input : list N) (e : JsonError.t) :
  (errorOverlay input (Some e)).*2 = input
  ∧ (∀ i c, errorOverlay input (Some e) !! i = Some (true, c)
            ↔ JsonError.position e = Integer (N.of_nat i)
              ∧ input !! i = Some c)
  ∧ (atOrBeyond (JsonError.position e) (length input) →
     Forall (λ span, span.1 = false) (errorOverlay input (Some e))).
Proof.
  assert (Hlookup : ∀ i,
    errorOverlay input (Some e) !! i
    = (λ c, (bool_decide (Integer (N.of_nat i) = JsonError.position e), c))
        <$> input !! i).
  { intros i. unfold errorOverlay. destruct input as [|c input]; [done|].
    cbn [nonempty]. by rewrite list_lookup_imap. }
  split_and!.
  - apply list_eq. intros i. rewrite list_lookup_fmap, Hlookup.
    by destruct (input !! i).
  - intros i c. rewrite Hlookup.
    destruct (input !! i) as [d|]; cbn; [|naive_solver].
    case_bool_decide; naive_solver.
  - intros Hend. apply Forall_lookup_2. intros i [mark c] Hi.
    rewrite Hlookup in Hi. destruct (input !! i) as [d|] eqn:Hd; [|done].
    apply lookup_lt_Some in Hd. cbn in Hi. injection Hi as <- <-.
    cbn. apply bool_decide_eq_false_2. intros Heq.
    rewrite <- Heq in Hend. cbn in Hend. lia.
Qed.

Lemma errorOverlay_marks_the_error_position_witness :
  Forall (λ span, span.1 = false)
    (errorOverlay (str "[1,")
       (Some {| JsonError.message := []; JsonError.line := 1;
                JsonError.column := 4; JsonError.position := Integer 3 |})).
Proof.
  apply (errorOverlay_marks_the_error_position (str "[1,")
           {| JsonError.message := []; JsonError.line := 1;
              JsonError.column := 4; JsonError.position := Integer 3 |}).
  vm_compute. lia.
Defined.

(** ** Rows *)

Lemma buildJsonTree_rows E obj : ∀ key path,
  Forall (λ node,
            canExpand node = isContainer (JsonNode.value node)
            ∧ JsonNode.expanded node
              = (if isContainer (JsonNode.value node)
                 then Some (bool_decide (JsonNode.path node ∈ E))
                 else None))
         (buildJsonTree E obj key path).
Proof.
  induction obj as [ | b | x | s | items IH | fields IH] using json_ind;
    intros key path; try by repeat constructor.
  - rewrite buildJsonTree_array. constructor; [done|].
    case_bool_decide; [|constructor].
    apply Forall_bind, Forall_forall. intros [i item] Hin.
    apply enumFrom_elem_of in Hin.
    rewrite Forall_forall in IH. by apply IH.
  - rewrite buildJsonTree_object. constructor; [done|].
    case_bool_decide; [|constructor].
    apply Forall_bind, Forall_forall. intros k _. unfold compose.
    destruct (get fields k) as [child|] eqn:Hget; [|constructor].
    apply get_Some_elem_of in Hget.
    rewrite Forall_forall in IH. by apply (IH _ Hget).
Qed.

(** X3. In every build, the rows that react to a click are exactly the
    rows of arrays and objects: a click on such a row toggles the row's
    path, a click on a leaf row leaves the state as it is.  The [expanded]
    field is present on container rows only, where it tells whether the
    row's path is in the expanded set. *)
Theorem rows_react_iff_container :
  ∀ (expanded : gset (list N)) (obj : json) (key path : list N),
    Forall (λ node,
              canExpand node = isContainer (JsonNode.value node)
              ∧ JsonNode.expanded node
                = (if isContainer (JsonNode.value node)
                   then Some (bool_decide (JsonNode.path node ∈ expanded))
                   else None)
              ∧ ∀ st, rowClick node st
                      = if isContainer (JsonNode.value node)
                        then toggleNode (JsonNode.path node) st
                        else st)
           (buildJsonTree expanded obj key path).
Proof.
  intros E obj key path.
  eapply Forall_impl; [apply buildJsonTree_rows|].
  intros node [Hcan Hexp]. split_and!; [done..|].
  intros st. unfold rowClick. by rewrite Hcan.
Qed.

(** ** When a tree is shown *)

Lemma buildJsonTree_head E obj key path :
  ∃ node rest,
    buildJsonTree E obj key path = node :: rest
    ∧ JsonNode.value node = obj
    ∧ JsonNode.path node = currentPathOf key path
    ∧ (key = str "root" → JsonNode.key node = str "root").
Proof.
  destruct obj as [ | b | x | s | items | fields];
    by eexists _, _; split_and!; [reflexivity|..]; try done; intros ->.
Qed.

(** X4. The tree panel is empty exactly when [parsedJson] is falsy (no
    value, or a root that is [null], [false], [0] or the empty string).
    Otherwise the node list starts with the row of the whole value, whose
    key and path are ['root']. *)
Theorem jsonTree_shown_iff_truthy (st : AppState) :
  (jsonTree st = [] ↔ ToBoolean (parsedJson st) = false)
  ∧ (ToBoolean (parsedJson st) = true →
     ∃ root rest,
       jsonTree st = root :: rest
       ∧ JsonNode.value root = parsedJson st
       ∧ JsonNode.key root = str "root"
       ∧ JsonNode.path root = str "root").
Proof.
  unfold jsonTree.
  destruct (buildJsonTree_head (expandedNodes st) (parsedJson st)
              (str "root") []) as (root & rest & Heq & Hvalue & Hpath & Hkey).
  destruct (ToBoolean (parsedJson st)).
  - split; [by rewrite Heq|]. intros _. exists root, rest. auto.
  - split; [done|]. discriminate.
Qed.

Lemma jsonTree_shown_iff_truthy_witness :
  ∃ root rest,
    jsonTree (setParsedJson nested initialState) = root :: rest
    ∧ JsonNode.path root = str "root".
Proof.
  destruct (jsonTree_shown_iff_truthy (setParsedJson nested initialState))
    as [_ Hshown].
  destruct Hshown as (root & rest & Heq & _ & _ & Hpath).
  - reflexivity.
  - exists root, rest. split; [exact Heq|exact Hpath].
Defined.

(** ** More on error location *)

Lemma countNewlines_take n s : (countNewlines (take n s) ≤ countNewlines s)%nat.
Proof.
  rewrite <- (take_drop n s) at 2. unfold countNewlines.
  rewrite filter_app, length_app. lia.
Qed.

(** X5. Whatever the text and the message, an error is located, with a
    line and a column that are at least 1 and a line that exists in the
    text.  A position beyond the end of the text (the number in the message
    need not come from the parser) is read as the end of the text. *)
Theorem located_error_is_one_based_and_clamped (input message : list N) :
  ∃ e,
    locateError input message = Some e
    ∧ (1 ≤ JsonError.line e ≤ 1 + countNewlines input)%nat
    ∧ (1 ≤ JsonError.column e)%nat
    ∧ (atOrBeyond (errorPosition message) (length input) →
       JsonError.line e = (1 + countNewlines input)%nat
       ∧ Z.of_nat (JsonError.column e)
         = (Z.of_nat (length input) - lastIndexOf 10 input)%Z).
Proof.
  unfold locateError.
  destruct (split_lastIndexOf 10 (substring0 input (errorPosition message)))
    as (piece & pieces & lastLine & Hsplit & Hlen & _ & _ & Hlast & Hcol).
  rewrite Hsplit. rewrite last_lookup, <- Nat.sub_1_r in Hlast.
  rewrite Hlast. eexists. split; [done|]. cbn.
  assert (Hle : (countNewlines (substring0 input (errorPosition message))
                 ≤ countNewlines input)%nat).
  { destruct (errorPosition message) as [n|]; cbn [substring0]; [|done].
    apply countNewlines_take. }
  unfold countNewlines in *. split_and!; [lia..|].
  intros Hend.
  assert (Hall : substring0 input (errorPosition message) = input).
  { destruct (errorPosition message) as [n|]; cbn [substring0]; [|done].
    by apply take_ge. }
  rewrite Hall in Hlen, Hcol. lia.
Qed.

Lemma located_error_is_one_based_and_clamped_witness :
  ∃ e,
    locateError (str "[1," ++ [10] ++ str "2") (str "bad at position 99")
    = Some e
    ∧ JsonError.line e = 2%nat ∧ Z.of_nat (JsonError.column e) = 2%Z.
Proof.
  destruct (located_error_is_one_based_and_clamped
              (str "[1," ++ [10] ++ str "2") (str "bad at position 99"))
    as (e & He & _ & _ & Hend).
  destruct Hend as [Hline Hcolumn].
  - vm_compute. lia.
  - exists e. split; [exact He|]. split; [exact Hline|exact Hcolumn].
Defined.

Lemma split_take n s :
  (n ≤ length s)%nat →
  ∃ pieces lastLine rest tailLines,
    split 10 (take n s) = pieces ++ [lastLine]
    ∧ split 10 s = pieces ++ (lastLine ++ rest) :: tailLines
    ∧ n = (sum_list_with (λ l, S (length l)) pieces + length lastLine)%nat.
Proof.
  revert n. induction s as [|c s IH]; intros n Hn.
  - exists [], [], [], []. destruct n; [done|]. simpl in Hn. lia.
  - destruct n as [|n].
    + cbn [take]. destruct (split_lastIndexOf 10 (c :: s))
        as (piece & pieces & _ & -> & _).
      by exists [], [], piece, pieces.
    + destruct (IH n) as (pieces & lastLine & rest & tailLines
                          & Htake & Hs & Hsum); [simpl in Hn; lia|].
      cbn [take split]. rewrite Htake, Hs. case_decide as Hc.
      * exists ([] :: pieces), lastLine, rest, tailLines.
        split_and!; [done..|]. cbn. lia.
      * destruct pieces as [|piece pieces].
        -- exists [], (c :: lastLine), rest, tailLines.
           split_and!; [done..|]. cbn in *. lia.
        -- exists ((c :: piece) :: pieces), lastLine, rest, tailLines.
           split_and!; [done..|]. cbn in *. lia.
Qed.

(** X6. Line and column locate the offset: for an offset within the text,
    the reported line exists in the text, the column lies within that line
    (or just after its end), and counting the earlier lines with their
    newlines plus [column - 1] characters gives the offset back. *)
Theorem line_and_column_give_back_the_offset
    (input message : list N) (e : JsonError.t) (offset : N) :
  errorPosition message = Integer offset →
  (N.to_nat offset ≤ length input)%nat →
  locateError input message = Some e →
  offsetOf (split 10 input) (JsonError.line e) (JsonError.column e)
  = N.to_nat offset
  ∧ ∃ l, split 10 input !! (JsonError.line e - 1)%nat = Some l
         ∧ (1 ≤ JsonError.column e ≤ length l + 1)%nat.
Proof.
  intros Hoffset Hle. unfold locateError. rewrite Hoffset. cbn [substring0].
  destruct (split_take (N.to_nat offset) input Hle)
    as (pieces & lastLine & rest & tailLines & Htake & Hs & Hsum).
  rewrite Htake, Hs, length_app. cbn [length].
  replace (length pieces + 1 - 1)%nat with (length pieces) by lia.
  rewrite lookup_app_r, Nat.sub_diag by lia. cbn [lookup list_lookup].
  intros [= <-]. cbn [JsonError.line JsonError.column].
  unfold offsetOf. rewrite !Nat.add_sub. split.
  - rewrite take_app_length. lia.
  - exists (lastLine ++ rest).
    rewrite lookup_app_r, Nat.sub_diag by lia.
    split; [done|]. rewrite length_app. lia.
Qed.

Lemma line_and_column_give_back_the_offset_witness :
  offsetOf (split 10 (str "[1," ++ [10] ++ str "2,")) 2 3 = 6%nat.
Proof.
  apply (line_and_column_give_back_the_offset
           (str "[1," ++ [10] ++ str "2,")
           (str "Unexpected end of JSON input at position 6")
           {| JsonError.message :=
                str "Unexpected end of JSON input at position 6";
              JsonError.line := 2; JsonError.column := 3;
              JsonError.position := Integer 6 |} 6).
  - vm_compute. reflexivity.
  - vm_compute. lia.
  - vm_compute. reflexivity.
Defined.

Lemma match_position_containsText message digits :
  match_position message = Some digits →
  containsText (str "position ") message = true.
Proof.
  induction message as [|c message IH]; [done|].
  cbn [match_position containsText].
  destruct (isPrefixOf (str "position ") (c :: message)); [done|].
  cbn [andb orb]. exact IH.
Qed.

(** X7. A message that does not contain the text ["position "] (such as
    the messages of engines other than V8) locates every error at line 1,
    column 1, offset 0, whatever the input. *)
Theorem message_without_position_locates_the_start
    (input message : list N) :
  containsText (str "position ") message = false →
  locateError input message
  = Some {| JsonError.message := message; JsonError.line := 1;
            JsonError.column := 1; JsonError.position := Integer 0 |}.
Proof.
  intros Hnone. unfold locateError, errorPosition.
  destruct (match_position message) as [digits|] eqn:Hmatch.
  - apply match_position_containsText in Hmatch. congruence.
  - reflexivity.
Qed.

Lemma message_without_position_locates_the_start_witness :
  JsonError.column <$>
    locateError (str "[1," ++ [10] ++ str "2,")
      (str "JSON.parse: unexpected end of data at line 2 column 3")
  = Some 1%nat.
Proof.
  rewrite (message_without_position_locates_the_start
             (str "[1," ++ [10] ++ str "2,")
             (str "JSON.parse: unexpected end of data at line 2 column 3")).
  - reflexivity.
  - vm_compute. reflexivity.
Defined.

(** ** Editing, clearing and clicking *)

(** X8. The order of two toggles does not matter. *)
Theorem toggles_commute (p q : list N) (X : gset (list N)) :
  toggle p (toggle q X) = toggle q (toggle p X).
Proof.
  destruct (decide (p = q)) as [->|Hpq]; [done|].
  assert (Hmem : ∀ r Y, r ∈ toggle q Y ↔ (r = q ∧ q ∉ Y) ∨ (r ≠ q ∧ r ∈ Y)).
  { intros r Y. unfold toggle. case_bool_decide;
      destruct (decide (r = q)); set_solver. }
  assert (Hmem' : ∀ r Y, r ∈ toggle p Y ↔ (r = p ∧ p ∉ Y) ∨ (r ≠ p ∧ r ∈ Y)).
  { intros r Y. unfold toggle. case_bool_decide;
      destruct (decide (r = p)); set_solver. }
  apply set_eq. intros r. rewrite Hmem', !Hmem, Hmem'.
  destruct (decide (r = p)), (decide (r = q)); naive_solver.
Qed.

Section EngineExtras.

Variable JSON_parse : list N → json + list N.

Local Abbreviation parseJsonWithError := (parseJsonWithError JSON_parse).
Local Abbreviation step := (step JSON_parse).
Local Abbreviation reachable := (reachable JSON_parse).
Local Abbreviation runEffects := (runEffects JSON_parse).

Lemma parseJsonWithError_result input st :
  parsedJson (parseJsonWithError input st)
  = parsedJson (parseJsonWithError input initialState)
  ∧ jsonError (parseJsonWithError input st)
    = jsonError (parseJsonWithError input initialState)
  ∧ jsonInput (parseJsonWithError input st) = jsonInput st.
Proof.
  unfold parseJsonWithError. destruct (negb _); [done|].
  destruct (JSON_parse input) as [parsed|message]; [done|].
  by destruct (locateError_total input message) as [e ->].
Qed.

Lemma autoExpandRoot_other_cells st :
  jsonInput (autoExpandRoot st) = jsonInput st
  ∧ parsedJson (autoExpandRoot st) = parsedJson st
  ∧ jsonError (autoExpandRoot st) = jsonError st.
Proof. unfold autoExpandRoot. by destruct (_ && _). Qed.

(** X9. What is shown always belongs to the current text: in every
    reachable state the parsed value and the error are the ones a parse of
    [jsonInput] gives.  So an error and a tree are never shown together,
    and a state with an error has no parsed value. *)
Theorem value_and_error_follow_the_input (st : AppState) :
  reachable st →
  parsedJson st = parsedJson (parseJsonWithError (jsonInput st) initialState)
  ∧ jsonError st = jsonError (parseJsonWithError (jsonInput st) initialState)
  ∧ (jsonError st ≠ None → parsedJson st = JNull ∧ jsonTree st = []).
Proof.
  intros Hreach.
  assert (Hinv :
    parsedJson st = parsedJson (parseJsonWithError (jsonInput st) initialState)
    ∧ jsonError st
      = jsonError (parseJsonWithError (jsonInput st) initialState)).
  { induction Hreach as [|ev st Hreach IH]; [done|].
    unfold step. destruct ev as [text|path]; cbn zeta.
    - destruct (autoExpandRoot_other_cells
                  (parseJsonWithError (jsonInput (setJsonInput text st))
                     (setJsonInput text st))) as (Hi & Hv & He).
      rewrite Hi, Hv, He. cbn [jsonInput setJsonInput].
      destruct (parseJsonWithError_result text (setJsonInput text st))
        as (Hv' & He' & Hi'). by rewrite Hv', He', Hi'.
    - destruct (autoExpandRoot_other_cells (toggleNode path st))
        as (Hi & Hv & He).
      rewrite Hi, Hv, He. exact IH. }
  destruct Hinv as [Hvalue Herror]. split_and!; [done..|].
  intros Hsome. assert (parsedJson st = JNull) as Hnull.
  { rewrite Hvalue. rewrite Herror in Hsome. revert Hsome.
    unfold parseJsonWithError. destruct (negb _); [done|].
    destruct (JSON_parse (jsonInput st)) as [parsed|message]; [done|].
    by destruct (locateError (jsonInput st) message). }
  split; [done|]. unfold jsonTree. by rewrite Hnull.
Qed.

(** X10. Editing the text does not touch the expansions the user chose:
    after a new input the expanded set is the one before, except that an
    empty set becomes [{"root"}] when the new text parses to a truthy
    value.  In particular [clearJson] empties the tree and keeps the
    expanded set. *)
Theorem editing_keeps_the_expansions (st : AppState) (text : list N) :
  (expandedNodes st ≠ ∅ →
   expandedNodes (step (SetJsonInput text) st) = expandedNodes st)
  ∧ (expandedNodes (step (SetJsonInput text) st) = expandedNodes st
     ∨ expandedNodes st = ∅
       ∧ ToBoolean (parsedJson (step (SetJsonInput text) st)) = true
       ∧ expandedNodes (step (SetJsonInput text) st) = {[ str "root" ]})
  ∧ jsonTree (runEffects (clearJson st)) = []
  ∧ expandedNodes (runEffects (clearJson st)) = expandedNodes st.
Proof.
  split_and!; [| |by destruct st..].
  - unfold step. cbn [jsonInput setJsonInput].
    intros Hne. rewrite autoExpandRoot_id; [|].
    + by rewrite (parseJsonWithError_expandedNodes JSON_parse).
    + by rewrite (parseJsonWithError_expandedNodes JSON_parse).
  - unfold step. cbn [jsonInput setJsonInput].
    set (st1 := parseJsonWithError text (setJsonInput text st)).
    assert (Hset : expandedNodes st1 = expandedNodes st)
      by (unfold st1;
          by rewrite (parseJsonWithError_expandedNodes JSON_parse)).
    destruct (decide (expandedNodes st = ∅)) as [Hempty|Hne].
    + destruct (ToBoolean (parsedJson st1)) eqn:Htruthy.
      * right. rewrite autoExpandRoot_parsedJson.
        split_and!; [done..|].
        apply autoExpandRoot_empty; [done|]. by rewrite Hset.
      * left. unfold autoExpandRoot. by rewrite Htruthy.
    + left. rewrite autoExpandRoot_id; [done|]. by rewrite Hset.
Qed.

(** X11. Clicking twice on a row that is on screen brings the whole state
    back, for leaf rows (which do not react) as for container rows, the
    automatic expansion of the root included. *)
Theorem clicking_a_row_twice_restores_the_state
    (st : AppState) (node : JsonNode.t) :
  reachable st → node ∈ jsonTree st →
  click node (click node st) = st.
Proof.
  intros Hreach Hnode.
  assert (Htruthy : ToBoolean (parsedJson st) = true).
  { unfold jsonTree in Hnode. destruct (ToBoolean (parsedJson st)); [done|].
    by apply elem_of_nil in Hnode. }
  assert (Hne : expandedNodes st ≠ ∅).
  { destruct Hreach as [|ev st' _]; [discriminate Htruthy|].
    by apply autoExpandRoot_nonempty. }
  assert (Hcan : canExpand node = isContainer (JsonNode.value node)).
  { unfold jsonTree in Hnode. rewrite Htruthy in Hnode.
    pose proof (buildJsonTree_rows (expandedNodes st) (parsedJson st)
                  (str "root") []) as Hrows.
    rewrite Forall_forall in Hrows. by apply Hrows. }
  unfold click, rowClick. rewrite Hcan.
  destruct (isContainer (JsonNode.value node)).
  - apply (double_toggle_of_visible_node JSON_parse st (JsonNode.path node));
      [done|]. by apply list_elem_of_fmap_2.
  - cbv iota. by rewrite !(autoExpandRoot_id st Hne).
Qed.

End EngineExtras.

Lemma editing_keeps_the_expansions_witness :
  expandedNodes
    (step sampleEngine (SetJsonInput (str "0"))
       (setExpandedNodes (λ _, {[ str "root.b" ]}) initialState))
  = expandedNodes (setExpandedNodes (λ _, {[ str "root.b" ]}) initialState).
Proof.
  apply (proj1 (editing_keeps_the_expansions sampleEngine
                  (setExpandedNodes (λ _, {[ str "root.b" ]}) initialState)
                  (str "0"))).
  cbn. set_solver.
Defined.

Lemma value_and_error_follow_the_input_witness :
  parsedJson (step sampleEngine (SetJsonInput malformed) initialState) = JNull
  ∧ jsonTree (step sampleEngine (SetJsonInput malformed) initialState) = [].
Proof.
  apply (value_and_error_follow_the_input sampleEngine).
  - apply reachable_step, reachable_initial.
  - vm_compute. discriminate.
Defined.

Lemma clicking_a_row_twice_restores_the_state_witness :
  ∃ node,
    node ∈ jsonTree (step sampleEngine (SetJsonInput (str "[]")) initialState)
    ∧ click node
        (click node (step sampleEngine (SetJsonInput (str "[]")) initialState))
      = step sampleEngine (SetJsonInput (str "[]")) initialState.
Proof.
  destruct (jsonTree (step sampleEngine (SetJsonInput (str "[]")) initialState))
    as [|node rest] eqn:Htree; [by vm_compute in Htree|].
  assert (Hnode : node ∈ jsonTree (step sampleEngine (SetJsonInput (str "[]"))
                                    initialState)).
  { rewrite Htree. left. }
  exists node. rewrite <- Htree. split; [exact Hnode|].
  apply (clicking_a_row_twice_restores_the_state sampleEngine).
  - apply reachable_step, reachable_initial.
  - exact Hnode.
Defined.

(** ** How many rows *)

Lemma countValues_array items :
  countValues (JArray items) = S (sum_list_with countValues items).
Proof. reflexivity. Qed.

Lemma countValues_object fields :
  countValues (JObject fields)
  = S (sum_list_with (λ kv, countValues kv.2) fields).
Proof.
  cbn [countValues]. f_equal.
  induction fields as [|[k x] fields IH]; [done|]. cbn. by rewrite IH.
Qed.

Lemma length_bind {A B} (f : A → list B) (l : list A) :
  length (l ≫= f) = sum_list_with (λ x, length (f x)) l.
Proof.
  induction l as [|x l IH]; [done|].
  cbn [mbind list_bind sum_list_with]. by rewrite length_app, IH.
Qed.

Lemma sum_list_with_enumFrom {A} (f : A → nat) (l : list A) i :
  sum_list_with (λ '(_, x), f x) (enumFrom i l) = sum_list_with f l.
Proof.
  revert i. induction l as [|x l IH]; intros i; [done|].
  cbn [enumFrom sum_list_with]. by rewrite IH.
Qed.

Lemma get_NoDup {A} (fields : list (list N * A)) k v :
  NoDup (fields.*1) → (k, v) ∈ fields → get fields k = Some v.
Proof.
  induction fields as [|[k' v'] fields IH]; cbn [get fmap list_fmap].
  - by intros _ ?%elem_of_nil.
  - intros [Hnotin Hnodup]%NoDup_cons [[= -> ->]|Hin]%elem_of_cons.
    + by rewrite decide_True.
    + rewrite decide_False; [by apply IH|].
      intros ->. apply Hnotin. apply list_elem_of_fmap. by exists (k, v).
Qed.

(** The properties of an object, visited in the order of [Object.keys],
    are its properties, each once. *)
Lemma object_bind_Permutation {B} (g : list N → json → list B) fields :
  NoDup (fields.*1) →
  Object_keys (fields.*1) ≫= (λ k,
    match get fields k with Some child => g k child | None => [] end)
  ≡ₚ fields ≫= (λ kv, g kv.1 kv.2).
Proof.
  intros Hnodup. rewrite Object_keys_Permutation, list_fmap_bind.
  erewrite Forall_bind_ext; [done|].
  apply Forall_forall. intros [k v] Hin. cbn.
  by rewrite (get_NoDup fields k v).
Qed.

Lemma sum_list_with_le {A} (f g : A → nat) (l : list A) :
  Forall (λ x, f x ≤ g x)%nat l →
  (sum_list_with f l ≤ sum_list_with g l)%nat.
Proof. induction 1; cbn; lia. Qed.

Lemma sum_list_with_eq {A} (f g : A → nat) (l : list A) :
  Forall (λ x, f x = g x) l → sum_list_with f l = sum_list_with g l.
Proof. induction 1; cbn; lia. Qed.

Lemma length_object_children (g : list N → json → list JsonNode.t) fields :
  NoDup (fields.*1) →
  length (Object_keys (fields.*1) ≫= (λ k,
            match get fields k with Some child => g k child | None => [] end))
  = sum_list_with (λ kv, length (g kv.1 kv.2)) fields.
Proof.
  intros Hnodup.
  rewrite (Permutation_length (object_bind_Permutation g fields Hnodup)).
  apply length_bind.
Qed.

Lemma buildJsonTree_length_le E obj : ∀ key path,
  wf_json obj = true →
  (length (buildJsonTree E obj key path) ≤ countValues obj)%nat.
Proof.
  induction obj as [ | b | x | s | items IH | fields IH] using json_ind;
    intros key path Hwf; try done.
  - rewrite buildJsonTree_array, countValues_array. cbn [length].
    apply le_n_S. case_bool_decide; [|cbn; lia].
    rewrite length_bind, <- (sum_list_with_enumFrom countValues items 0).
    apply sum_list_with_le, Forall_forall. intros [i item] Hin.
    apply enumFrom_elem_of in Hin. apply wf_json_array in Hwf.
    rewrite Forall_forall in IH, Hwf. apply IH; auto.
  - rewrite buildJsonTree_object, countValues_object. cbn [length].
    apply wf_json_object in Hwf as [Hnodup Hwf].
    apply le_n_S. case_bool_decide; [|cbn; lia].
    rewrite (length_object_children
               (λ k child, buildJsonTree E child k (currentPathOf key path)))
      by done.
    apply sum_list_with_le, Forall_forall. intros [k child] Hin.
    rewrite Forall_forall in IH, Hwf. apply (IH _ Hin). by apply (Hwf _ Hin).
Qed.

Lemma buildJsonTree_length_full E obj : ∀ key path,
  wf_json obj = true →
  Forall (λ node, JsonNode.expanded node ≠ Some false)
         (buildJsonTree E obj key path) →
  length (buildJsonTree E obj key path) = countValues obj.
Proof.
  induction obj as [ | b | x | s | items IH | fields IH] using json_ind;
    intros key path Hwf; try done.
  - rewrite buildJsonTree_array, countValues_array.
    intros [Hhead Hrest]%Forall_cons. cbn in Hhead. cbn [length]. f_equal.
    case_bool_decide; [|done].
    rewrite length_bind, <- (sum_list_with_enumFrom countValues items 0).
    apply Forall_bind in Hrest. rewrite Forall_forall in Hrest.
    apply sum_list_with_eq, Forall_forall. intros [i item] Hin.
    specialize (Hrest _ Hin). apply enumFrom_elem_of in Hin.
    apply wf_json_array in Hwf. rewrite Forall_forall in IH, Hwf.
    apply IH; auto.
  - rewrite buildJsonTree_object, countValues_object.
    intros [Hhead Hrest]%Forall_cons. cbn in Hhead. cbn [length]. f_equal.
    apply wf_json_object in Hwf as [Hnodup Hwf].
    case_bool_decide; [|done].
    rewrite (length_object_children
               (λ k child, buildJsonTree E child k (currentPathOf key path)))
      by done.
    apply Forall_bind in Hrest. rewrite Forall_forall in Hrest.
    apply sum_list_with_eq, Forall_forall. intros [k child] Hin.
    rewrite Forall_forall in IH, Hwf.
    apply (IH _ Hin); [by apply (Hwf _ Hin)|].
    assert (Hk : k ∈ Object_keys (fields.*1)).
    { rewrite Object_keys_Permutation. apply list_elem_of_fmap.
      by exists (k, child). }
    specialize (Hrest _ Hk). unfold compose in Hrest.
    by rewrite (get_NoDup fields k child) in Hrest.
Qed.

(** X12. A build never shows more rows than the document has values.  It
    shows one row when the root is collapsed, and exactly one row per value
    of the document when no row on screen is a collapsed container. *)
Theorem row_count_is_bounded_by_the_document
    (expanded : gset (list N)) (obj : json) :
  wf_json obj = true →
  (1 ≤ length (buildJsonTree expanded obj (str "root") [])
     ≤ countValues obj)%nat
  ∧ (str "root" ∉ expanded →
     length (buildJsonTree expanded obj (str "root") []) = 1%nat)
  ∧ (Forall (λ node, JsonNode.expanded node ≠ Some false)
            (buildJsonTree expanded obj (str "root") []) →
     length (buildJsonTree expanded obj (str "root") []) = countValues obj).
Proof.
  intros Hwf. split_and!.
  - destruct (buildJsonTree_head expanded obj (str "root") [])
      as (node & rest & -> & _). cbn. lia.
  - by apply buildJsonTree_length_le.
  - intros Hroot.
    rewrite <- (length_fmap JsonNode.path).
    by rewrite collapsed_root_shows_one_node.
  - by apply buildJsonTree_length_full.
Qed.

Lemma row_count_is_bounded_by_the_document_witness :
  length (buildJsonTree
            {[str "root"; str "root.b"; str "root.b.d"; str "root.f"]}
            nested (str "root") []) = 10%nat.
Proof.
  apply (row_count_is_bounded_by_the_document
           {[str "root"; str "root.b"; str "root.b.d"; str "root.f"]} nested).
  - vm_compute. reflexivity.
  - vm_compute. repeat constructor; discriminate.
Defined.

(** ** Expanding more *)

Lemma bind_sublist_pointwise {A B} (f g : A → list B) (l : list A) :
  Forall (λ x, f x `sublist_of` g x) l → l ≫= f `sublist_of` l ≫= g.
Proof.
  induction 1 as [|x l Hx _ IH]; [done|].
  cbn [mbind list_bind]. by apply sublist_app.
Qed.

(** X13. Expanding more paths only adds rows: when the expanded set grows,
    the values and paths shown before are still shown, in the same order. *)
Theorem expanding_more_only_adds_rows
    (E E' : gset (list N)) (obj : json) (key path : list N) :
  E ⊆ E' →
  visited <$> buildJsonTree E obj key path
  `sublist_of` visited <$> buildJsonTree E' obj key path.
Proof.
  intros Hsub. revert key path.
  induction obj as [ | b | x | s | items IH | fields IH] using json_ind;
    intros key path; try done.
  - rewrite !buildJsonTree_array, !fmap_cons. apply sublist_skip.
    case_bool_decide as Hin; [|apply sublist_nil_l].
    rewrite bool_decide_eq_true_2 by set_solver.
    rewrite !fmap_bind. apply bind_sublist_pointwise, Forall_forall.
    intros [i item] Hitem%enumFrom_elem_of.
    rewrite Forall_forall in IH. by apply IH.
  - rewrite !buildJsonTree_object, !fmap_cons. apply sublist_skip.
    case_bool_decide as Hin; [|apply sublist_nil_l].
    rewrite bool_decide_eq_true_2 by set_solver.
    rewrite !fmap_bind. apply bind_sublist_pointwise, Forall_forall.
    intros k _. destruct (get fields k) as [child|] eqn:Hget; [|done].
    apply get_Some_elem_of in Hget. rewrite Forall_forall in IH.
    apply (IH _ Hget).
Qed.

Lemma expanding_more_only_adds_rows_witness :
  visited <$> buildJsonTree {[str "root"]} nested (str "root") []
  `sublist_of`
  visited <$> buildJsonTree {[str "root"; str "root.f"]} nested (str "root") [].
Proof.
  apply expanding_more_only_adds_rows. set_solver.
Defined.

(** ** The indented text *)

Example nested_indented :
  stringifyIndented [] (JObject [(str "b", JArray [num 1; JObject []]);
                                 (str "a", JArray [])])
  = [123; 10]
    ++ str "  " ++ [34; 98; 34] ++ str ": [" ++ [10]
    ++ str "    1," ++ [10]
    ++ str "    {}" ++ [10]
    ++ str "  ]," ++ [10]
    ++ str "  " ++ [34; 97; 34] ++ str ": []" ++ [10]
    ++ str "}".
Proof. vm_compute. reflexivity. Qed.

Example nested_lines : linesFigure nested = 14%nat.
Proof. vm_compute. reflexivity. Qed.

Lemma countNewlines_app a b :
  countNewlines (a ++ b) = (countNewlines a + countNewlines b)%nat.
Proof. unfold countNewlines. by rewrite filter_app, length_app. Qed.

Lemma countNewlines_none s :
  Forall (λ c, c ≠ 10) s → countNewlines s = 0%nat.
Proof.
  unfold countNewlines. induction 1 as [|c s Hc _ IH]; [done|].
  by rewrite filter_cons, decide_False.
Qed.

Lemma uint_units_no_newline d : Forall (λ c, c ≠ 10) (uint_units d).
Proof.
  eapply Forall_impl; [apply uint_units_digits|]. intros c Hc. cbv beta in Hc. lia.
Qed.

Lemma finite_toString_no_newline s n :
  Forall (λ c, c ≠ 10) (finite_toString s n).
Proof.
  pose proof (uint_units_no_newline (Pos.to_uint s)) as Hdigits.
  assert (Hexp : Forall (λ c, c ≠ 10)
                   ((if decide (n - 1 < 0)%Z then str "-" else str "+")
                      ++ decimal (Z.to_N (Z.abs (n - 1))))).
  { apply Forall_app. split; [|apply uint_units_no_newline].
    case_decide; by repeat constructor. }
  unfold finite_toString. repeat case_decide;
    repeat (apply Forall_app; split);
    auto using Forall_take, Forall_drop, Forall_replicate;
    try (by repeat constructor);
    try (unfold decimal; apply uint_units_no_newline).
Qed.

Lemma Number_toString_no_newline x :
  Forall (λ c, c ≠ 10) (Number_toString x).
Proof.
  destruct x as [negative|negative|negative s n]; cbn [Number_toString].
  - by repeat constructor.
  - destruct negative; by repeat constructor.
  - apply Forall_app. split; [|apply finite_toString_no_newline].
    destruct negative; by repeat constructor.
Qed.

Lemma hex_unit_no_newline k : hex_unit k ≠ 10.
Proof. unfold hex_unit. case_match; lia. Qed.

Lemma unicode_escape_no_newline c : Forall (λ d, d ≠ 10) (unicode_escape c).
Proof.
  unfold unicode_escape. apply Forall_app. split.
  - vm_compute. by repeat constructor.
  - repeat constructor; apply hex_unit_no_newline.
Qed.

Lemma quote_units_no_newline s : Forall (λ c, c ≠ 10) (quote_units s).
Proof.
  cut (Forall (λ c, c ≠ 10) (quote_units s)
       ∧ ∀ c, Forall (λ c, c ≠ 10) (quote_units (c :: s))); [by intros [? _]|].
  assert (Hstep : ∀ c rest,
    Forall (λ c, c ≠ 10) (quote_units rest) →
    (∀ d rest', rest = d :: rest' → Forall (λ c, c ≠ 10) (quote_units rest')) →
    Forall (λ c, c ≠ 10) (quote_units (c :: rest))).
  { intros c rest Hrest Hrest'. cbn [quote_units].
    repeat case_decide;
      try (apply Forall_app; split; [by repeat constructor|done]).
    destruct (c <? 32).
    { apply Forall_app. split; [apply unicode_escape_no_newline|done]. }
    destruct (isHighSurrogate c).
    { destruct rest as [|d rest']; [apply unicode_escape_no_newline|].
      destruct (isLowSurrogate d) eqn:Hd.
      - constructor; [done|]. constructor; [|by eapply Hrest'].
        unfold isLowSurrogate in Hd. intros ->. done.
      - apply Forall_app. split; [apply unicode_escape_no_newline|done]. }
    destruct (isLowSurrogate c).
    { apply Forall_app. split; [apply unicode_escape_no_newline|done]. }
    by constructor. }
  induction s as [|d s [IH1 IH2]].
  - split; [constructor|]. intros c. apply Hstep; [constructor|done].
  - split; [apply IH2|]. intros c. apply Hstep; [apply IH2|].
    by intros ? ? [= <- <-].
Qed.

Lemma QuoteJSONString_no_newline s : countNewlines (QuoteJSONString s) = 0%nat.
Proof.
  apply countNewlines_none. unfold QuoteJSONString.
  repeat (apply Forall_app; split); try (by repeat constructor).
  apply quote_units_no_newline.
Qed.

Lemma countNewlines_join_with sep parts :
  countNewlines (join_with sep parts)
  = (sum_list_with countNewlines parts
     + (length parts - 1) * countNewlines sep)%nat.
Proof.
  induction parts as [|p [|q parts] IH].
  - done.
  - cbn [join_with sum_list_with length]. lia.
  - change (join_with sep (p :: q :: parts))
      with (p ++ sep ++ join_with sep (q :: parts)).
    rewrite !countNewlines_app, IH.
    cbn [sum_list_with length]. generalize (countNewlines sep). intros m.
    rewrite !Nat.sub_succ, !Nat.sub_0_r. cbn [Nat.mul]. lia.
Qed.

Lemma lines_indentedContainer opening closing indent parts :
  opening ≠ 10 → closing ≠ 10 → countNewlines indent = 0%nat →
  S (countNewlines (indentedContainer opening closing indent parts))
  = linesOfParts parts.
Proof.
  intros Ho Hc Hindent. unfold indentedContainer, linesOfParts.
  assert (Hone : ∀ c, c ≠ 10 → countNewlines [c] = 0%nat).
  { intros c Hne. apply countNewlines_none. by repeat constructor. }
  destruct parts as [|p parts].
  - change [opening; closing] with ([opening] ++ [closing]).
    by rewrite countNewlines_app, !Hone.
  - change [opening; 10] with ([opening] ++ [10]).
    change [44; 10] with ([44] ++ [10]).
    rewrite !countNewlines_app, countNewlines_join_with, !countNewlines_app.
    rewrite (Hone opening), (Hone closing), (Hone 44), Hindent by done.
    change (countNewlines [10]) with 1%nat.
    change (countNewlines [32; 32]) with 0%nat.
    assert (Hsum : ∀ l : list (list N),
      sum_list_with (λ p, S (countNewlines p)) l
      = (length l + sum_list_with countNewlines l)%nat).
    { induction l as [|q l IH]; [done|]. cbn. lia. }
    rewrite Hsum. cbn [length]. rewrite Nat.sub_succ, Nat.sub_0_r. lia.
Qed.

Lemma linesOfParts_Permutation parts parts' :
  parts ≡ₚ parts' → linesOfParts parts = linesOfParts parts'.
Proof.
  intros Hperm. unfold linesOfParts.
  destruct parts as [|p parts], parts' as [|p' parts'].
  - done.
  - by apply Permutation_nil_l in Hperm.
  - by apply Permutation_nil_r in Hperm.
  - by rewrite Hperm.
Qed.

Lemma sum_list_with_fmap {A B} (g : B → nat) (f : A → B) (l : list A) :
  sum_list_with g (f <$> l) = sum_list_with (λ x, g (f x)) l.
Proof. induction l as [|x l IH]; [done|]. cbn. by rewrite IH. Qed.

(** The members of an object, taken in the order of [Object.keys], are a
    rearrangement of its properties. *)
Lemma object_omap_Permutation {B C} (h : list N → B → C)
    (fields : list (list N * B)) :
  NoDup (fields.*1) →
  omap (λ k, h k <$> get fields k) (Object_keys (fields.*1))
  ≡ₚ (λ kv, h kv.1 kv.2) <$> fields.
Proof.
  intros Hnodup. rewrite Object_keys_Permutation.
  assert (Hsub : ∀ l : list (list N * B),
    Forall (λ kv, get fields kv.1 = Some kv.2) l →
    omap (λ k, h k <$> get fields k) (l.*1) = (λ kv, h kv.1 kv.2) <$> l).
  { induction 1 as [|[k v] l Hkv _ IH]; [done|].
    cbn in *. by rewrite Hkv, IH. }
  rewrite Hsub; [done|]. apply Forall_forall. intros [k v] Hin.
  by apply get_NoDup.
Qed.

Lemma omap_ext_pointwise {A B} (f g : A → option B) (l : list A) :
  (∀ x, f x = g x) → omap f l = omap g l.
Proof.
  intros Hfg. induction l as [|x l IH]; [done|]. cbn. by rewrite Hfg, IH.
Qed.

Lemma linesOfParts_fmap {A} (f : A → list N) (g : A → nat) (l : list A) :
  Forall (λ x, S (countNewlines (f x)) = g x) l →
  linesOfParts (f <$> l)
  = match l with [] => 1 | _ :: _ => 2 + sum_list_with g l end%nat.
Proof.
  intros Hfg. destruct l as [|x l]; [done|].
  rewrite <- (sum_list_with_eq _ _ _ Hfg).
  rewrite <- (sum_list_with_fmap (λ p, S (countNewlines p)) f).
  reflexivity.
Qed.

Lemma lineCount_array items :
  lineCount (JArray items)
  = match items with
    | [] => 1
    | _ :: _ => 2 + sum_list_with lineCount items
    end%nat.
Proof. by destruct items. Qed.

Lemma lineCount_object fields :
  lineCount (JObject fields)
  = match fields with
    | [] => 1
    | _ :: _ => 2 + sum_list_with (λ kv, lineCount kv.2) fields
    end%nat.
Proof.
  assert (Hsum : ∀ l : list (list N * json),
    (fix sum (l : list (list N * json)) : nat :=
       match l with
       | [] => 0
       | (_, x) :: l' => lineCount x + sum l'
       end)%nat l = sum_list_with (λ kv, lineCount kv.2) l).
  { induction l as [|[k x] l IH]; [done|]. cbn. by rewrite IH. }
  destruct fields as [|[k x] fields]; [done|]. cbn [lineCount].
  by rewrite Hsum.
Qed.

Lemma stringifyIndented_lines v : ∀ indent,
  wf_json v = true → countNewlines indent = 0%nat →
  S (countNewlines (stringifyIndented indent v)) = lineCount v.
Proof.
  induction v as [ | b | x | s | items IH | fields IH] using json_ind;
    intros indent Hwf Hindent.
  - done.
  - by destruct b.
  - cbn [stringifyIndented JSON_stringify lineCount]. f_equal.
    apply countNewlines_none. destruct x;
      [apply (Number_toString_no_newline (NumZero negative))
      |by repeat constructor
      |apply (Number_toString_no_newline (NumFinite negative s n))].
  - cbn [stringifyIndented JSON_stringify lineCount].
    by rewrite QuoteJSONString_no_newline.
  - cbn [stringifyIndented].
    rewrite lines_indentedContainer, lineCount_array by done.
    assert (Hinner : countNewlines (indent ++ [32; 32]) = 0%nat)
      by by rewrite countNewlines_app, Hindent.
    assert (Hparts :
      (fix each (l : list json) : list (list N) :=
         match l with
         | [] => []
         | item :: l' =>
             stringifyIndented (indent ++ [32; 32]) item :: each l'
         end) items
      = stringifyIndented (indent ++ [32; 32]) <$> items).
    { clear. induction items as [|x items IH]; [done|]. cbn. by rewrite IH. }
    rewrite Hparts. apply wf_json_array in Hwf.
    apply linesOfParts_fmap.
    rewrite Forall_forall in IH, Hwf |- *. intros x Hx. by apply IH; auto.
  - cbn [stringifyIndented].
    rewrite lines_indentedContainer, lineCount_object by done.
    assert (Hinner : countNewlines (indent ++ [32; 32]) = 0%nat)
      by by rewrite countNewlines_app, Hindent.
    assert (Hmembers :
      (fix each (l : list (list N * json)) : list (list N * list N) :=
         match l with
         | [] => []
         | (k, item) :: l' =>
             (k, stringifyIndented (indent ++ [32; 32]) item) :: each l'
         end) fields
      = (λ kv, (kv.1, stringifyIndented (indent ++ [32; 32]) kv.2))
          <$> fields).
    { clear. induction fields as [|[k x] fields IH]; [done|]. cbn. by rewrite IH. }
    rewrite Hmembers. apply wf_json_object in Hwf as [Hnodup Hwf].
    rewrite (omap_ext_pointwise _
               (λ k, (λ v, QuoteJSONString k ++ [58; 32]
                             ++ stringifyIndented (indent ++ [32; 32]) v)
                       <$> get fields k)).
    2:{ intros k.
        rewrite (get_fmap (λ _ v, stringifyIndented (indent ++ [32; 32]) v)).
        by destruct (get fields k). }
    rewrite (linesOfParts_Permutation _ _
               (object_omap_Permutation
                  (λ k v, QuoteJSONString k ++ [58; 32]
                            ++ stringifyIndented (indent ++ [32; 32]) v)
                  fields Hnodup)).
    apply (linesOfParts_fmap _ (λ kv, lineCount kv.2)).
    rewrite Forall_forall in IH, Hwf |- *. intros [k x] Hx. cbn [fst snd].
    rewrite !countNewlines_app, QuoteJSONString_no_newline.
    change (countNewlines [58; 32]) with 0%nat. cbn [Nat.add].
    by apply (IH _ Hx); [apply (Hwf _ Hx)|].
Qed.

(** X14. The "Lines" figure depends on the shape of the value only: a leaf
    or an empty container takes one line, any other container two lines
    more than its members together.  Newlines inside strings and keys are
    escaped and never add a line.  [getFormattedJsonLines] returns that
    many lines, and [formatJson] puts a text of that many lines into the
    input. *)
Theorem lines_figure_counts_the_structure (st : AppState) :
  wf_json (parsedJson st) = true →
  linesFigure (parsedJson st) = lineCount (parsedJson st)
  ∧ (ToBoolean (parsedJson st) = true →
     length (getFormattedJsonLines st) = lineCount (parsedJson st)
     ∧ length (split 10 (jsonInput (formatJson st)))
       = lineCount (parsedJson st)).
Proof.
  intros Hwf.
  assert (Hlines : linesFigure (parsedJson st) = lineCount (parsedJson st)).
  { unfold linesFigure.
    destruct (split_lastIndexOf 10 (stringifyIndented [] (parsedJson st)))
      as (piece & pieces & _ & -> & Hlen & _).
    cbn [length]. rewrite Hlen.
    by apply (stringifyIndented_lines (parsedJson st) []). }
  split; [done|]. intros Htruthy.
  unfold getFormattedJsonLines, formatJson. by rewrite Htruthy.
Qed.

Lemma lines_figure_counts_the_structure_witness :
  length (getFormattedJsonLines
            (setParsedJson (JArray [JString [97; 10; 98]; JArray []])
               initialState)) = 4%nat.
Proof.
  apply (lines_figure_counts_the_structure
           (setParsedJson (JArray [JString [97; 10; 98]; JArray []])
              initialState)).
  - reflexivity.
  - reflexivity.
Defined.

(** ** Sizes add up *)

Lemma utf8_encode_app_tail a : ∀ t,
  (∀ d t', t = d :: t' → isLowSurrogate d = false) →
  utf8_encode (a ++ t) = utf8_encode a ++ utf8_encode t.
Proof.
  set (P := λ a : list N, ∀ t,
          (∀ d t', t = d :: t' → isLowSurrogate d = false) →
          utf8_encode (a ++ t) = utf8_encode a ++ utf8_encode t).
  cut (P a ∧ ∀ x, P (x :: a)); [by intros [? _]|].
  assert (Hstep : ∀ x rest,
    P rest → (∀ d rest', rest = d :: rest' → P rest') → P (x :: rest)).
  { intros x rest Hrest Hrest' t Ht.
    change ((x :: rest) ++ t) with (x :: (rest ++ t)).
    cbn [utf8_encode].
    destruct (x <? 128); [by rewrite Hrest|].
    destruct (x <? 2048); [by rewrite Hrest, <- app_assoc|].
    destruct (isHighSurrogate x).
    - destruct rest as [|d rest'].
      + cbn [app]. destruct t as [|d t']; [by rewrite app_nil_r|].
        by rewrite (Ht d t').
      + cbn [app]. destruct (isLowSurrogate d).
        * rewrite (Hrest' d rest') by done. by rewrite <- app_assoc.
        * change (d :: rest' ++ t) with ((d :: rest') ++ t).
          rewrite Hrest by done. by rewrite <- app_assoc.
    - destruct (isLowSurrogate x); rewrite Hrest by done;
        by rewrite <- app_assoc. }
  induction a as [|d a [IH1 IH2]].
  - split; [done|]. intros x. apply Hstep; [done|done].
  - split; [apply IH2|]. intros x. apply Hstep; [apply IH2|].
    by intros ? ? [= <- <-].
Qed.

Lemma utf8_encode_app a c b :
  isLowSurrogate c = false →
  utf8_encode (a ++ c :: b) = utf8_encode a ++ utf8_encode (c :: b).
Proof.
  intros Hc. apply utf8_encode_app_tail. by intros ? ? [= <- <-].
Qed.

Lemma Blob_size_app a c b :
  isLowSurrogate c = false →
  Blob_size (a ++ c :: b) = (Blob_size a + Blob_size (c :: b))%nat.
Proof.
  intros Hc. unfold Blob_size. by rewrite utf8_encode_app, length_app.
Qed.

Lemma Blob_size_ascii c b :
  (c <? 128) = true → Blob_size (c :: b) = S (Blob_size b).
Proof. intros Hc. unfold Blob_size. cbn [utf8_encode]. by rewrite Hc. Qed.

Lemma Blob_size_join_comma parts c b :
  isLowSurrogate c = false →
  Blob_size (join_comma parts ++ c :: b)
  = (sum_list_with Blob_size parts + (length parts - 1)
     + Blob_size (c :: b))%nat.
Proof.
  intros Hc. induction parts as [|p [|q parts] IH].
  - done.
  - cbn [join_comma sum_list_with length]. rewrite Blob_size_app by done. lia.
  - change (join_comma (p :: q :: parts))
      with (p ++ [44] ++ join_comma (q :: parts)).
    rewrite <- !app_assoc.
    change ([44] ++ join_comma (q :: parts) ++ c :: b)
      with (44 :: (join_comma (q :: parts) ++ c :: b)).
    rewrite Blob_size_app, Blob_size_ascii, IH by done.
    cbn [sum_list_with length]. lia.
Qed.

Lemma Blob_size_container opening closing parts :
  (opening <? 128) = true → (closing <? 128) = true →
  Blob_size ([opening] ++ join_comma parts ++ [closing])
  = (2 + sum_list_with Blob_size parts + (length parts - 1))%nat.
Proof.
  intros Ho Hc. cbn [app]. rewrite Blob_size_ascii by done.
  rewrite Blob_size_join_comma.
  - rewrite (Blob_size_ascii closing []) by done.
    change (Blob_size []) with 0%nat. lia.
  - unfold isLowSurrogate. apply andb_false_iff. left.
    apply N.leb_gt. apply N.ltb_lt in Hc. lia.
Qed.

Lemma calculateSize_array items :
  calculateSize (JArray items)
  = (2 + sum_list_with calculateSize items + (length items - 1))%nat.
Proof.
  unfold calculateSize. cbn [JSON_stringify].
  assert (Hparts :
    (fix each (l : list json) : list (list N) :=
       match l with
       | [] => []
       | item :: l' => JSON_stringify item :: each l'
       end) items = JSON_stringify <$> items).
  { induction items as [|x items IH]; [done|]. cbn. by rewrite IH. }
  rewrite Hparts, Blob_size_container by done.
  by rewrite sum_list_with_fmap, length_fmap.
Qed.

Lemma calculateSize_object fields :
  NoDup (fields.*1) →
  calculateSize (JObject fields)
  = (2 + sum_list_with
           (λ kv, Blob_size (QuoteJSONString kv.1) + 1 + calculateSize kv.2)
           fields
     + (length fields - 1))%nat.
Proof.
  intros Hnodup. unfold calculateSize. cbn [JSON_stringify].
  assert (Hmembers :
    (fix each (l : list (list N * json)) : list (list N * list N) :=
       match l with
       | [] => []
       | (k, item) :: l' => (k, JSON_stringify item) :: each l'
       end) fields = (λ kv, (kv.1, JSON_stringify kv.2)) <$> fields).
  { clear. induction fields as [|[k x] fields IH]; [done|].
    cbn. by rewrite IH. }
  rewrite Hmembers, Blob_size_container by done.
  rewrite (omap_ext_pointwise _
             (λ k, (λ v, QuoteJSONString k ++ [58] ++ JSON_stringify v)
                     <$> get fields k)).
  2:{ intros k. rewrite (get_fmap (λ _ v, JSON_stringify v)).
      by destruct (get fields k). }
  rewrite (object_omap_Permutation
             (λ k v, QuoteJSONString k ++ [58] ++ JSON_stringify v)
             fields Hnodup).
  rewrite sum_list_with_fmap, length_fmap. f_equal. f_equal.
  apply sum_list_with_eq, Forall_true. intros [k v]. cbn [fst snd app].
  change (QuoteJSONString k ++ 58 :: JSON_stringify v)
    with (QuoteJSONString k ++ 58 :: JSON_stringify v).
  rewrite Blob_size_app, Blob_size_ascii by done. lia.
Qed.

(** X15. Sizes add up along the tree.  The size of an array is the sum of
    the sizes of its elements, plus one byte per separating comma and two
    for the brackets; the size of an object adds to that, for every
    property, the size of the quoted key and one byte for the colon.  So
    every row below a container shows a strictly smaller size than the
    container. *)
Theorem container_size_is_the_sum_of_its_parts :
  (∀ items,
     calculateSize (JArray items)
     = (2 + sum_list_with calculateSize items + (length items - 1))%nat
     ∧ Forall (λ item, calculateSize item < calculateSize (JArray items))%nat
              items)
  ∧ (∀ fields,
       NoDup (fields.*1) →
       calculateSize (JObject fields)
       = (2 + sum_list_with
                (λ kv, Blob_size (QuoteJSONString kv.1) + 1
                       + calculateSize kv.2) fields
          + (length fields - 1))%nat
       ∧ Forall (λ kv, calculateSize kv.2 < calculateSize (JObject fields))%nat
                fields).
Proof.
  split.
  - intros items. split; [apply calculateSize_array|].
    apply Forall_forall. intros item Hin. rewrite calculateSize_array.
    pose proof (sum_list_with_in _ calculateSize _ Hin). lia.
  - intros fields Hnodup. split; [by apply calculateSize_object|].
    apply Forall_forall. intros kv Hin. rewrite calculateSize_object by done.
    pose proof (sum_list_with_in _
                  (λ kv, Blob_size (QuoteJSONString kv.1) + 1
                         + calculateSize kv.2)%nat _ Hin) as Hle.
    cbv beta in Hle. lia.
Qed.

Lemma container_size_is_the_sum_of_its_parts_witness :
  calculateSize nested = 43%nat.
Proof.
  destruct container_size_is_the_sum_of_its_parts as [_ Hobject].
  destruct (Hobject [(str "a", num 1);
                     (str "b", JObject [(str "c", num 2);
                                        (str "d", JObject [(str "e", num 3)])]);
                     (str "f", JArray [num 1; num 2; num 3])]) as [Hsize _].
  - vm_compute. repeat constructor; set_solver.
  - exact Hsize.
Defined.

(** ** Minify and format *)

Lemma digit_is_not_white_space c : 48 ≤ c ≤ 57 → isWhiteSpace c = false.
Proof.
  intros Hc. unfold isWhiteSpace. apply orb_false_iff. split.
  - apply bool_decide_eq_false. rewrite !elem_of_cons, elem_of_nil. lia.
  - apply andb_false_iff. left. apply N.leb_gt. lia.
Qed.

Lemma uint_units_startsVisible d : d ≠ Nil → startsVisible (uint_units d).
Proof.
  intros Hd. pose proof (uint_units_digits d) as Hdigits.
  destruct d; [done|..]; apply Forall_cons in Hdigits as [Hc _];
    by apply digit_is_not_white_space.
Qed.

Lemma startsVisible_app s t : startsVisible s → startsVisible (s ++ t).
Proof. by destruct s. Qed.

Lemma startsVisible_take n s :
  (0 < n)%nat → startsVisible s → startsVisible (take n s).
Proof. destruct n; [lia|]. by destruct s. Qed.

Lemma finite_toString_startsVisible s n : startsVisible (finite_toString s n).
Proof.
  pose proof (uint_units_startsVisible (Pos.to_uint s)
                (DecimalPos.Unsigned.to_uint_nonnil s)) as Hdigits.
  unfold finite_toString. repeat case_decide;
    try (by apply startsVisible_app);
    try (apply startsVisible_app, startsVisible_take; [lia|done]).
  all: vm_compute; reflexivity.
Qed.

Lemma JSON_stringify_scalar_startsVisible v :
  isContainer v = false → startsVisible (JSON_stringify v).
Proof.
  destruct v as [ | b | x | s | items | fields]; try done; intros _.
  - by destruct b.
  - destruct x as [negative|negative|negative s n]; try done.
    cbn [JSON_stringify Number_toString]. destruct negative.
    + done.
    + apply finite_toString_startsVisible.
Qed.

Lemma JSON_stringify_startsVisible v : startsVisible (JSON_stringify v).
Proof.
  destruct v as [ | b | x | s | items | fields];
    try (by apply JSON_stringify_scalar_startsVisible); done.
Qed.

Lemma stringifyIndented_startsVisible v : startsVisible (stringifyIndented [] v).
Proof.
  destruct v as [ | b | x | s | items | fields];
    try (by apply JSON_stringify_scalar_startsVisible).
  - cbn [stringifyIndented]. unfold indentedContainer. by case_match.
  - cbn [stringifyIndented]. unfold indentedContainer. by case_match.
Qed.

Lemma startsVisible_trim s : startsVisible s → nonempty (trim s) = true.
Proof.
  intros Hs. destruct (trim s) as [|c t] eqn:Htrim; [|done].
  apply trim_nil in Htrim. destruct s as [|c s]; [done|].
  apply Forall_cons in Htrim as [Hc _]. cbn in Hs. congruence.
Qed.

Section Reformatting.

Variable JSON_parse : list N → json + list N.

Local Abbreviation parseJsonWithError := (parseJsonWithError JSON_parse).
Local Abbreviation reachable := (reachable JSON_parse).
Local Abbreviation runEffects := (runEffects JSON_parse).

Lemma equivalent_text_keeps_the_value (st : AppState) (text : list N) :
  reachable st → ToBoolean (parsedJson st) = true →
  startsVisible text → JSON_parse text = inl (parsedJson st) →
  runEffects (setJsonInput text st)
  = setJsonError None (setJsonInput text st).
Proof.
  intros Hreach Htruthy Htext Hparse.
  assert (Hne : expandedNodes st ≠ ∅).
  { destruct Hreach as [|ev st' _]; [discriminate Htruthy|].
    by apply autoExpandRoot_nonempty. }
  unfold runEffects, parseJsonWithError.
  cbn [jsonInput setJsonInput].
  rewrite (startsVisible_trim text Htext), Hparse. cbn [negb].
  rewrite autoExpandRoot_id; [|done].
  by destruct st.
Qed.

(** X16. Minifying or formatting keeps what is shown.  In a reachable state
    with a truthy value, if the engine reads the text produced by
    [removeWhitespaces] (or by [formatJson]) back as the same value, then
    after the handler and the effects the input is that text, and the
    parsed value, the expanded set and the node list are the same as
    before, with no error.  (The proof rests on the produced text not
    being blank: it is not taken for an empty input.) *)
Theorem reformatting_keeps_the_value_and_the_tree (st : AppState) :
  reachable st → ToBoolean (parsedJson st) = true →
  (JSON_parse (JSON_stringify (parsedJson st)) = inl (parsedJson st) →
   runEffects (removeWhitespaces st)
   = setJsonError None (setJsonInput (JSON_stringify (parsedJson st)) st)
   ∧ jsonTree (runEffects (removeWhitespaces st)) = jsonTree st)
  ∧ (JSON_parse (stringifyIndented [] (parsedJson st)) = inl (parsedJson st) →
     runEffects (formatJson st)
     = setJsonError None
         (setJsonInput (stringifyIndented [] (parsedJson st)) st)
     ∧ jsonTree (runEffects (formatJson st)) = jsonTree st).
Proof.
  intros Hreach Htruthy. unfold removeWhitespaces, formatJson.
  rewrite Htruthy. split; intros Hparse.
  - rewrite equivalent_text_keeps_the_value;
      auto using JSON_stringify_startsVisible.
  - rewrite equivalent_text_keeps_the_value;
      auto using stringifyIndented_startsVisible.
Qed.

End Reformatting.

Lemma reformatting_keeps_the_value_and_the_tree_witness :
  jsonTree (runEffects sampleEngine
              (removeWhitespaces
                 (step sampleEngine (SetJsonInput (str "[]")) initialState)))
  = jsonTree (step sampleEngine (SetJsonInput (str "[]")) initialState).
Proof.
  apply (reformatting_keeps_the_value_and_the_tree sampleEngine
           (step sampleEngine (SetJsonInput (str "[]")) initialState)).
  - apply reachable_step, reachable_initial.
  - vm_compute. reflexivity.
  - vm_compute. reflexivity.
Defined.

(** ** Items and rows *)

Lemma collapsed_shows_one_node E obj key path :
  currentPathOf key path ∉ E →
  length (buildJsonTree E obj key path) = 1%nat.
Proof.
  intros Hcollapsed. destruct obj as [ | b | x | s | items | fields]; try done.
  - rewrite buildJsonTree_array.
    by rewrite (bool_decide_eq_false_2 _ Hcollapsed).
  - rewrite buildJsonTree_object.
    by rewrite (bool_decide_eq_false_2 _ Hcollapsed).
Qed.

Lemma child_of_root_is_collapsed k :
  currentPathOf k (str "root") ∉ ({[ str "root" ]} : gset (list N)).
Proof.
  rewrite currentPathOf_child by done. intros Hin%elem_of_singleton.
  apply (f_equal length) in Hin. rewrite length_app in Hin. cbn in Hin. lia.
Qed.

(** X17. The "Items" figure is the number of rows below the root when the
    root alone is expanded: for an array or an object, the tree then shows
    the root row and one row per item. *)
Theorem items_figure_counts_the_rows_below_the_root (obj : json) :
  wf_json obj = true → isContainer obj = true →
  length (buildJsonTree {[ str "root" ]} obj (str "root") [])
  = S (itemsFigure obj).
Proof.
  intros Hwf Hcontainer.
  destruct obj as [ | b | x | s | items | fields]; try done.
  - rewrite buildJsonTree_array.
    change (currentPathOf (str "root") []) with (str "root").
    rewrite bool_decide_eq_true_2 by set_solver.
    cbn [length]. f_equal. rewrite length_bind.
    change (itemsFigure (JArray items)) with (length items).
    clear. generalize 0.
    induction items as [|item items IH]; intros i; [done|].
    cbn [enumFrom sum_list_with length].
    rewrite collapsed_shows_one_node by apply child_of_root_is_collapsed.
    by rewrite IH.
  - apply wf_json_object in Hwf as [Hnodup _].
    rewrite buildJsonTree_object.
    change (currentPathOf (str "root") []) with (str "root").
    rewrite bool_decide_eq_true_2 by set_solver.
    cbn [length]. f_equal.
    rewrite (length_object_children
               (λ k child, buildJsonTree {[str "root"]} child k (str "root")))
      by done.
    replace (itemsFigure (JObject fields)) with (length fields).
    2:{ unfold itemsFigure. cbn.
        by rewrite length_Object_keys, length_fmap. }
    clear. induction fields as [|[k v] fields IH]; [done|].
    cbn [sum_list_with length fst snd].
    rewrite collapsed_shows_one_node by apply child_of_root_is_collapsed.
    by rewrite IH.
Qed.

Lemma items_figure_counts_the_rows_below_the_root_witness :
  length (buildJsonTree {[ str "root" ]} nested (str "root") []) = 4%nat.
Proof.
  apply (items_figure_counts_the_rows_below_the_root nested).
  - reflexivity.
  - reflexivity.
Defined.

(** ** The position in the messages of V8 *)

Lemma units_uint_uint_units d : units_uint (uint_units d) = Some d.
Proof. induction d; cbn [uint_units units_uint]; by rewrite ?IHd. Qed.

Lemma parseInt_decimal n : parseInt (decimal n) = roundToDouble n.
Proof.
  unfold parseInt, decimal.
  by rewrite units_uint_uint_units, DecimalN.Unsigned.of_to.
Qed.

Lemma takeDigits_digits digits post :
  Forall (λ c, isDigit c = true) digits → takeDigits post = [] →
  takeDigits (digits ++ post) = digits.
Proof.
  intros Hdigits Hpost. induction Hdigits as [|c digits Hc _ IH]; [done|].
  cbn [app takeDigits]. by rewrite Hc, IH.
Qed.

Lemma decimal_isDigit n : Forall (λ c, isDigit c = true) (decimal n).
Proof.
  eapply Forall_impl; [apply uint_units_digits|]. intros c Hc.
  unfold isDigit. apply andb_true_iff. split; apply N.leb_le; cbv beta in Hc; lia.
Qed.

Lemma decimal_nonempty n : nonempty (decimal n) = true.
Proof.
  unfold decimal. destruct n as [|p]; [done|].
  pose proof (DecimalPos.Unsigned.to_uint_nonnil p) as Hp.
  change (N.to_uint (N.pos p)) with (Pos.to_uint p).
  by destruct (Pos.to_uint p).
Qed.

(** X18. For a message that reads [... position N ...], where ["position "]
    does not occur earlier and no digit follows the numeral [N], the offset
    taken from the message is the Number value for [N]: [N] itself up to
    2^53, and beyond that a double that is at least 2^53, or [Infinity]. *)
Theorem position_is_read_from_the_message (pre post : list N) (n : N) :
  containsText (str "position ") (pre ++ str "position") = false →
  takeDigits post = [] →
  errorPosition (pre ++ str "position " ++ decimal n ++ post)
  = roundToDouble n
  ∧ (n ≤ 2 ^ 53 →
     errorPosition (pre ++ str "position " ++ decimal n ++ post) = Integer n)
  ∧ (2 ^ 53 ≤ n →
     ∀ k, errorPosition (pre ++ str "position " ++ decimal n ++ post)
          = Integer k →
          2 ^ 53 ≤ k).
Proof.
  intros Hpre Hpost.
  assert (Hread : errorPosition (pre ++ str "position " ++ decimal n ++ post)
                  = roundToDouble n).
  2: { rewrite Hread. split_and!; [done|apply roundToDouble_small|].
       intros Hn k. by apply roundToDouble_large. }
  unfold errorPosition.
  assert (Hmatch :
    match_position (pre ++ str "position " ++ decimal n ++ post)
    = Some (decimal n)).
  { induction pre as [|c pre IH].
    - cbn [app]. change (str "position " ++ decimal n ++ post)
        with (112 :: (str "osition " ++ decimal n ++ post)).
      cbn [match_position].
      change (112 :: (str "osition " ++ decimal n ++ post))
        with (str "position " ++ decimal n ++ post).
      assert (Hprefix : isPrefixOf (str "position ")
                          (str "position " ++ decimal n ++ post) = true).
      { unfold isPrefixOf. apply bool_decide_eq_true. by rewrite take_app_length. }
      assert (Hdrop : drop 9 (str "position " ++ decimal n ++ post)
                      = decimal n ++ post)
        by (by rewrite (drop_app_length (str "position "))).
      rewrite Hprefix, Hdrop.
      rewrite (takeDigits_digits _ _ (decimal_isDigit n) Hpost).
      by rewrite decimal_nonempty.
    - cbn [app containsText] in Hpre.
      apply orb_false_iff in Hpre as [Hhere Hlater].
      cbn [app match_position].
      assert (Hfalse : isPrefixOf (str "position ")
                         (c :: pre ++ str "position " ++ decimal n ++ post)
                       = false).
      { unfold isPrefixOf in *. apply bool_decide_eq_false.
        apply bool_decide_eq_false in Hhere.
        change (length (str "position ")) with 9%nat in *.
        intros Heq. apply Hhere.
        assert (Hsame :
          c :: pre ++ str "position " ++ decimal n ++ post
          = (c :: pre ++ str "position") ++ ([32] ++ decimal n ++ post)).
        { cbn [app]. f_equal. by rewrite <- app_assoc. }
        rewrite Hsame, take_app_le in Heq; [done|].
        cbn [length]. rewrite length_app.
        change (length (str "position")) with 8%nat. lia. }
      rewrite Hfalse. cbn [andb]. by apply IH. }
  by rewrite Hmatch, parseInt_decimal.
Qed.

Lemma position_is_read_from_the_message_witness :
  errorPosition (str "Unexpected token } in JSON at position 6") = Integer 6.
Proof.
  destruct (position_is_read_from_the_message
              (str "Unexpected token } in JSON at ") [] 6)
    as (_ & Hexact & _).
  - vm_compute. reflexivity.
  - reflexivity.
  - apply Hexact. vm_compute. discriminate.
Defined.
